(** * langcodes: the [Language] class of [langcodes/__init__.py]

    A shallow embedding of the tag model ([Language.make], [to_tag],
    [update], [broaden], [maximize], [simplify_script], [distance],
    [Language.get]) and of the matcher ([closest_match]), with the
    class-level instance table [_INSTANCES] threaded as explicit state.

    Conventions.
    - A Python [str] is a [string]; each [ascii] stands for one character
      (a code point below 256; language tags are ASCII).
    - An attribute that is [None] is [None]; a string attribute holds
      [Some s]; a list or tuple attribute holds [Some l], a list and a
      tuple with the same elements being one value.
    - An object carries its identity [py_id] (allocation order), so that
      [is] is decidable on values.
    - The per-instance caches ([_simplified], [_broader], [_filled],
      [_dict], ...) memoise methods whose result is an interned instance
      or is computed from the attributes alone: computing again asks
      [make] for the same key and is handed the same instance.  They are
      left out, except [_str_tag], which [__eq__] reads.
    - [_PARSE_CACHE] is left out as well.  [Language.get] stores its
      result under the string it has parsed; for [normalize=False], and
      for [normalize=True] when that string has no whole-tag replacement
      of its own, a hit returns what the computation modelled here
      returns.  When the parsed string is a replacement that has a
      whole-tag replacement of its own, a later [normalize=True] call on
      it is answered from the cache in the source and computed from its
      replacement here; no statement below is about such a call.
    - What [__init__.py] imports from modules that are not among the
      sources ([parse_tag], [tuple_distance_cached], the tables of
      [data_dicts]) is gathered in the record [environment], over which
      every statement is quantified. *)

From Stdlib Require Import String Ascii List ZArith Bool Arith Lia.
From Stdlib Require Import Permutation Sorted.
Import ListNotations.
Open Scope string_scope.
Open Scope list_scope.

(** ** Python built-ins used by the module *)

Module Py.

(** [bool(x)] for [x : Optional[str]]. *)
Definition truthy_str (x : option string) : bool :=
  match x with
  | Some s => negb (s =? "")
  | None => false
  end.

(** [bool(x)] for [x] a list, a tuple or [None]. *)
Definition truthy_seq (x : option (list string)) : bool :=
  match x with
  | Some (_ :: _) => true
  | _ => false
  end.

(** [a or b]. *)
Definition or_str (a b : option string) : option string :=
  if truthy_str a then a else b.

Definition or_seq (a b : option (list string)) : option (list string) :=
  if truthy_seq a then a else b.

(** [tuple(x or ())]. *)
Definition tuple_or_empty (x : option (list string)) : list string :=
  match x with
  | Some l => l
  | None => []
  end.

(** [sorted(l)] on strings: insertion into an ascending list. *)
Fixpoint insert_sorted (x : string) (l : list string) : list string :=
  match l with
  | [] => [x]
  | y :: l' => if String.leb x y then x :: l else y :: insert_sorted x l'
  end.

Definition sorted (l : list string) : list string :=
  fold_right insert_sorted [] l.

(** [sep.join(l)]. *)
Definition join (sep : string) (l : list string) : string :=
  String.concat sep l.

(** [set(s)] for a string [s]: its characters, as one-character strings. *)
Definition chars (s : string) : list string :=
  map (fun c => String c EmptyString) (list_ascii_of_string s).

(** [x in l] for strings. *)
Definition str_in (x : string) (l : list string) : bool :=
  existsb (String.eqb x) l.

(** [c.lower()] on a code point below 256: A-Z, and the Latin-1 capitals
    0xC0-0xDE except the multiplication sign 0xD7. *)
Definition lower_char (c : ascii) : ascii :=
  let n := nat_of_ascii c in
  if (((65 <=? n) && (n <=? 90))
      || ((192 <=? n) && (n <=? 222) && negb (n =? 215)))%nat
  then ascii_of_nat (n + 32) else c.

Fixpoint lower (s : string) : string :=
  match s with
  | EmptyString => EmptyString
  | String c s' => String (lower_char c) (lower s')
  end.

End Py.
Import Py.

(** ** Objects, exceptions and the class-level state *)

Record Language : Type := mkLanguage {
  py_id : nat;
  language : option string;
  extlangs : option (list string);
  script : option string;
  territory : option string;
  variants : option (list string);
  extensions : option (list string);
  private : option string;
  _str_tag : option string
}.

(** The key of [_INSTANCES]: the tuple [values] built by [make]. *)
Definition values_t : Type :=
  option string * list string * option string * option string
  * list string * list string * option string.

Inductive exception : Type :=
| RuntimeError (msg : string)
| LanguageTagError (msg : string)
| RecursionError
| IndexError.

Inductive result (A : Type) : Type :=
| Ok (a : A)
| Raise (e : exception).
Arguments Ok {A} a.
Arguments Raise {A} e.

(** [heap] lists every [Language] object constructed so far, oldest first;
    [_INSTANCES] is the class attribute of that name. *)
Record store : Type := mkStore {
  heap : list Language;
  _INSTANCES : list (values_t * Language)
}.

Definition empty_store : store := mkStore [] [].

(** Computations that read and extend the store and may raise. *)
Definition M (A : Type) : Type := store -> result A * store.

Definition ret {A} (a : A) : M A := fun st => (Ok a, st).

Definition raise {A} (e : exception) : M A := fun st => (Raise e, st).

Definition bind {A B} (c : M A) (k : A -> M B) : M B :=
  fun st =>
    match c st with
    | (Ok a, st') => k a st'
    | (Raise e, st') => (Raise e, st')
    end.

Declare Scope py_scope.
Delimit Scope py_scope with py.
Notation "x <- c ;; k" := (bind c (fun x => k))
  (at level 61, c at next level, right associativity) : py_scope.
Notation "c ;;; k" := (bind c (fun _ => k))
  (at level 61, right associativity) : py_scope.
Open Scope py_scope.

(** Equality of [values] tuples, as the dict compares its keys. *)
Definition opt_str_eqb (a b : option string) : bool :=
  match a, b with
  | Some x, Some y => x =? y
  | None, None => true
  | _, _ => false
  end.

Fixpoint seq_eqb (a b : list string) : bool :=
  match a, b with
  | [], [] => true
  | x :: a', y :: b' => (x =? y) && seq_eqb a' b'
  | _, _ => false
  end.

Definition values_eqb (a b : values_t) : bool :=
  let '(l1, e1, s1, t1, v1, x1, p1) := a in
  let '(l2, e2, s2, t2, v2, x2, p2) := b in
  opt_str_eqb l1 l2 && seq_eqb e1 e2 && opt_str_eqb s1 s2
  && opt_str_eqb t1 t2 && seq_eqb v1 v2 && seq_eqb x1 x2
  && opt_str_eqb p1 p2.

(** [d.get(k)] on [_INSTANCES]. *)
Fixpoint instances_lookup (k : values_t) (d : list (values_t * Language))
  : option Language :=
  match d with
  | [] => None
  | (k', inst) :: d' =>
      if values_eqb k k' then Some inst else instances_lookup k d'
  end.

Definition INSTANCES_get (k : values_t) : M (option Language) :=
  fun st => (Ok (instances_lookup k (_INSTANCES st)), st).

(** [cls._INSTANCES[values] = instance], for a key that is not present. *)
Definition INSTANCES_set (k : values_t) (inst : Language) : M unit :=
  fun st => (Ok tt, mkStore (heap st) ((k, inst) :: _INSTANCES st)).

(** ** Serialization *)

(** [if x: subtags.append(x)]. *)
Definition append_str (subtags : list string) (x : option string)
  : list string :=
  match x with
  | Some s => if truthy_str x then subtags ++ [s] else subtags
  | None => subtags
  end.

(** [if x: for e in f(x): subtags.append(e)]. *)
Definition append_seq (subtags : list string)
    (f : list string -> list string) (x : option (list string))
  : list string :=
  match x with
  | Some l => if truthy_seq x then subtags ++ f l else subtags
  | None => subtags
  end.

(** The body of [to_tag] below its cache test. *)
Definition render_tag (language : option string)
    (extlangs : option (list string)) (script territory : option string)
    (variants extensions : option (list string)) (private : option string)
  : string :=
  let subtags := ["und"] in
  let subtags :=
    match language with
    | Some l => if truthy_str language then [l] else subtags
    | None => subtags
    end in
  let subtags := append_seq subtags sorted extlangs in
  let subtags := append_str subtags script in
  let subtags := append_str subtags territory in
  let subtags := append_seq subtags sorted variants in
  let subtags := append_seq subtags (fun l => l) extensions in
  let subtags := append_str subtags private in
  join "-" subtags.

(** [Language.to_tag]: the cached [_str_tag] when there is one. *)
Definition to_tag (self : Language) : string :=
  match _str_tag self with
  | Some s => s
  | None =>
      render_tag (language self) (extlangs self) (script self)
        (territory self) (variants self) (extensions self) (private self)
  end.

(** [Language.__init__]: a new object, whose [_str_tag] the closing call
    [self.to_tag()] has filled in. *)
Definition __init__ (language : option string)
    (extlangs : option (list string)) (script territory : option string)
    (variants extensions : option (list string)) (private : option string)
  : M Language :=
  fun st =>
    let self :=
      mkLanguage (length (heap st)) language extlangs script territory
        variants extensions private
        (Some (render_tag language extlangs script territory variants
                 extensions private)) in
    (Ok self, mkStore (heap st ++ [self]) (_INSTANCES st)).

(** [Language.make]. *)
Definition make (language : option string)
    (extlangs : option (list string)) (script territory : option string)
    (variants extensions : option (list string)) (private : option string)
  : M Language :=
  let values :=
    (language, tuple_or_empty extlangs, script, territory,
     tuple_or_empty variants, tuple_or_empty extensions, private) in
  found <- INSTANCES_get values ;;
  match found with
  | Some inst => ret inst
  | None =>
      instance <- __init__ language extlangs script territory variants
                    extensions private ;;
      INSTANCES_set values instance ;;;
      ret instance
  end.


(** [Language.__eq__], for [other] a [Language]. *)
Definition __eq__ (self other : Language) : bool :=
  if (py_id self =? py_id other)%nat then true
  else opt_str_eqb (_str_tag self) (_str_tag other).

(** ** Attribute dictionaries *)

Inductive attribute : Type :=
| attr_language | attr_extlangs | attr_script | attr_territory
| attr_variants | attr_extensions | attr_private.

Definition ATTRIBUTES : list attribute :=
  [attr_language; attr_extlangs; attr_script; attr_territory;
   attr_variants; attr_extensions; attr_private].

Definition BROADER_KEYSETS : list (list attribute) :=
  [ [attr_language; attr_script; attr_territory];
    [attr_language; attr_territory];
    [attr_language; attr_script];
    [attr_language];
    [attr_script];
    [] ].

Definition MATCHABLE_KEYSETS : list (list attribute) :=
  [ [attr_language; attr_script; attr_territory];
    [attr_language; attr_script];
    [attr_language] ].

Definition attribute_eqb (a b : attribute) : bool :=
  match a, b with
  | attr_language, attr_language | attr_extlangs, attr_extlangs
  | attr_script, attr_script | attr_territory, attr_territory
  | attr_variants, attr_variants | attr_extensions, attr_extensions
  | attr_private, attr_private => true
  | _, _ => false
  end.

Definition attr_in (a : attribute) (keys : list attribute) : bool :=
  existsb (attribute_eqb a) keys.

(** A dict from attribute names to values, as [to_dict] returns and
    [Language.get] builds: a field is [None] when the key is absent. *)
Record dict : Type := mkDict {
  d_language : option string;
  d_extlangs : option (list string);
  d_script : option string;
  d_territory : option string;
  d_variants : option (list string);
  d_extensions : option (list string);
  d_private : option string
}.

Definition empty_dict : dict := mkDict None None None None None None None.

(** [Language.to_dict]: the attributes that are truthy. *)
Definition to_dict (self : Language) : dict :=
  mkDict
    (if truthy_str (language self) then language self else None)
    (if truthy_seq (extlangs self) then extlangs self else None)
    (if truthy_str (script self) then script self else None)
    (if truthy_str (territory self) then territory self else None)
    (if truthy_seq (variants self) then variants self else None)
    (if truthy_seq (extensions self) then extensions self else None)
    (if truthy_str (private self) then private self else None).

(** [Language._filter_keys]. *)
Definition _filter_keys (d : dict) (keys : list attribute) : dict :=
  mkDict
    (if attr_in attr_language keys then d_language d else None)
    (if attr_in attr_extlangs keys then d_extlangs d else None)
    (if attr_in attr_script keys then d_script d else None)
    (if attr_in attr_territory keys then d_territory d else None)
    (if attr_in attr_variants keys then d_variants d else None)
    (if attr_in attr_extensions keys then d_extensions d else None)
    (if attr_in attr_private keys then d_private d else None).

(** [Language.make] called with the dict [d] unpacked as keyword
    arguments: an absent key takes the default [None]. *)
Definition make_kwargs (d : dict) : M Language :=
  make (d_language d) (d_extlangs d) (d_script d) (d_territory d)
    (d_variants d) (d_extensions d) (d_private d).

(** [d.update(other)]. *)
Definition dict_update (d other : dict) : dict :=
  let upd {A} (old new : option A) : option A :=
    match new with Some _ => new | None => old end in
  mkDict
    (upd (d_language d) (d_language other))
    (upd (d_extlangs d) (d_extlangs other))
    (upd (d_script d) (d_script other))
    (upd (d_territory d) (d_territory other))
    (upd (d_variants d) (d_variants other))
    (upd (d_extensions d) (d_extensions other))
    (upd (d_private d) (d_private other)).

(** [d.setdefault(key, []).append(value)] for the three list keys. *)
Definition setdefault_append (l : option (list string)) (value : string)
  : option (list string) :=
  match l with
  | Some l' => Some (l' ++ [value])
  | None => Some [value]
  end.

(** The [newdata] argument of [update_dict]: a key may be absent
    ([None]) or present, possibly with the value [None]. *)
Record newdata_t : Type := mkNewdata {
  nd_language : option (option string);
  nd_extlangs : option (option (list string));
  nd_script : option (option string);
  nd_territory : option (option string);
  nd_variants : option (option (list string));
  nd_extensions : option (option (list string));
  nd_private : option (option string)
}.

(** [{'script': v}] and [{'language': v}]. *)
Definition newdata_script (v : option string) : newdata_t :=
  mkNewdata None None (Some v) None None None None.

Definition newdata_language (v : option string) : newdata_t :=
  mkNewdata (Some v) None None None None None None.

(** [newdata.get(key, default)]. *)
Definition nd_get {A} (entry : option A) (default : A) : A :=
  match entry with
  | Some v => v
  | None => default
  end.

(** ** Merging and filtering *)

(** [Language.update]. *)
Definition update (self other : Language) : M Language :=
  make
    (or_str (language other) (language self))
    (or_seq (extlangs other) (extlangs self))
    (or_str (script other) (script self))
    (or_str (territory other) (territory self))
    (or_seq (variants other) (variants self))
    (or_seq (extensions other) (extensions self))
    (or_str (private other) (private self)).

(** [Language.update_dict]. *)
Definition update_dict (self : Language) (newdata : newdata_t) : M Language :=
  make
    (nd_get (nd_language newdata) (language self))
    (nd_get (nd_extlangs newdata) (extlangs self))
    (nd_get (nd_script newdata) (script self))
    (nd_get (nd_territory newdata) (territory self))
    (nd_get (nd_variants newdata) (variants self))
    (nd_get (nd_extensions newdata) (extensions self))
    (nd_get (nd_private newdata) (private self)).

(** [Language._filter_attributes]. *)
Definition _filter_attributes (self : Language) (keyset : list attribute)
  : M Language :=
  make_kwargs (_filter_keys (to_dict self) keyset).

(** The loop of [broaden]: [broader] is [self._broader] so far. *)
Fixpoint broaden_loop (self : Language) (keysets : list (list attribute))
    (broader : list Language) (seen : list string) : M (list Language) :=
  match keysets with
  | [] => ret broader
  | keyset :: keysets' =>
      filtered <- _filter_attributes self keyset ;;
      let tag := to_tag filtered in
      if negb (str_in tag seen)
      then broaden_loop self keysets' (broader ++ [filtered]) (tag :: seen)
      else broaden_loop self keysets' broader seen
  end.

(** [Language.broaden]; [seen] starts as [set(self.to_tag())]. *)
Definition broaden (self : Language) : M (list Language) :=
  let broader := [self] in
  let seen := chars (to_tag self) in
  broaden_loop self BROADER_KEYSETS broader seen.

(** [Language.matchable_tags]. *)
Fixpoint matchable_tags_loop (self : Language)
    (keysets : list (list attribute)) (acc : list string) : M (list string) :=
  match keysets with
  | [] => ret acc
  | keyset :: keysets' =>
      filtered <- _filter_attributes self keyset ;;
      matchable_tags_loop self keysets' (acc ++ [to_tag filtered])
  end.

Definition matchable_tags (self : Language) : M (list string) :=
  matchable_tags_loop self MATCHABLE_KEYSETS [].

(** ** What the module imports *)

(** The subtag types that [langcodes.tag_parser.parse_tag] pairs with
    each subtag: the six that [Language.get] names, and [script] and
    [private], which reach its last branch (they are the remaining types
    of section 4.1 of the specification). *)
Inductive subtag_type : Type :=
| st_language | st_extlang | st_script | st_territory
| st_variant | st_extension | st_private | st_grandfathered.

(** A [(language, script, territory)] triple of the distance engine. *)
Definition triple : Type := option string * option string * option string.

(** A tag argument of type [{str, 'Language'}]. *)
Inductive tag_arg : Type :=
| TagStr (s : string)
| TagLang (l : Language).

(** A read-only dict from strings to strings, as [langcodes.data_dicts]
    defines them: the first binding of a key is its value. *)
Definition table : Type := list (string * string).

(** [d.get(key)]. *)
Fixpoint table_get (d : table) (key : string) : option string :=
  match d with
  | [] => None
  | (k, v) :: d' => if key =? k then Some v else table_get d' key
  end.

(** The names [__init__.py] imports from modules that are not part of
    the sources at hand, and the interpreter's bound on the nesting of
    [Language.get] inside itself. *)
Record environment : Type := mkEnvironment {
  parse_tag : string -> result (list (subtag_type * string));
  tuple_distance_cached : triple -> triple -> Z;
  DEFAULT_SCRIPTS : table;
  LANGUAGE_REPLACEMENTS : table;
  TERRITORY_REPLACEMENTS : table;
  NORMALIZED_MACROLANGUAGES : table;
  LIKELY_SUBTAGS : table;
  recursion_limit : nat
}.

(** The message of the [RuntimeError] that [maximize] raises. *)
Definition likely_subtags_error : string :=
  ("Couldn't fill in likely values. This represents a problem "
   ++ "with the LIKELY_SUBTAGS data.")%string.

Definition is_none {A} (x : option A) : bool :=
  match x with
  | None => true
  | Some _ => false
  end.

Section WithEnvironment.

Variable env : environment.

(** [Language.simplify_script]. *)
Definition simplify_script (self : Language) : M Language :=
  match language self with
  | Some lang =>
      if truthy_str (language self) && truthy_str (script self)
      then
        if opt_str_eqb (table_get (DEFAULT_SCRIPTS env) lang) (script self)
        then update_dict self (newdata_script None)
        else ret self
      else ret self
  | None => ret self
  end.

(** [Language.assume_script]; a missing key is the [KeyError] branch. *)
Definition assume_script (self : Language) : M Language :=
  match language self with
  | Some lang =>
      if truthy_str (language self) && negb (truthy_str (script self))
      then
        match table_get (DEFAULT_SCRIPTS env) lang with
        | Some s => update_dict self (newdata_script (Some s))
        | None => ret self
        end
      else ret self
  | None => ret self
  end.

(** [Language.prefer_macrolanguage]. *)
Definition prefer_macrolanguage (self : Language) : M Language :=
  let language :=
    match language self with
    | Some l => if truthy_str (language self) then l else "und"
    | None => "und"
    end in
  match table_get (NORMALIZED_MACROLANGUAGES env) language with
  | Some macro => update_dict self (newdata_language (Some macro))
  | None => ret self
  end.

(** The [for typ, value in components] loop of [Language.get]; [recur]
    is the nested call [Language.get(_, normalize)].

    With [normalize=False] no branch makes a nested call and [data] holds
    lists of its own only.  With [normalize=True],
    [data.update(other.to_dict())] puts the list objects of the instance
    [other] into [data], and a later [setdefault(...).append(value)]
    appends to such a list in place: the attribute of [other] grows while
    its [_str_tag] and its key in [_INSTANCES] stay.  Here the list is
    extended as a copy and [other] is left as it was, so after such an
    append this model and the source differ on the attributes of [other].
    No statement below is about the store after such an append. *)
Fixpoint get_components (recur : string -> M Language) (normalize : bool)
    (components : list (subtag_type * string)) (data : dict) : M dict :=
  match components with
  | [] => ret data
  | (typ, value) :: components' =>
      data' <-
        match typ with
        | st_extlang =>
            match normalize, d_language data with
            | true, Some lang =>
                let minitag := (lang ++ "-" ++ value)%string in
                match table_get (LANGUAGE_REPLACEMENTS env)
                        (lower minitag) with
                | Some norm =>
                    other <- recur norm ;;
                    ret (dict_update data (to_dict other))
                | None =>
                    ret (mkDict (d_language data)
                           (setdefault_append (d_extlangs data) value)
                           (d_script data) (d_territory data)
                           (d_variants data) (d_extensions data)
                           (d_private data))
                end
            | _, _ =>
                ret (mkDict (d_language data)
                       (setdefault_append (d_extlangs data) value)
                       (d_script data) (d_territory data)
                       (d_variants data) (d_extensions data)
                       (d_private data))
            end
        | st_variant =>
            ret (mkDict (d_language data) (d_extlangs data)
                   (d_script data) (d_territory data)
                   (setdefault_append (d_variants data) value)
                   (d_extensions data) (d_private data))
        | st_extension =>
            ret (mkDict (d_language data) (d_extlangs data)
                   (d_script data) (d_territory data) (d_variants data)
                   (setdefault_append (d_extensions data) value)
                   (d_private data))
        | st_language =>
            if value =? "und" then ret data
            else if normalize then
              match table_get (LANGUAGE_REPLACEMENTS env)
                      (lower value) with
              | Some replacement =>
                  other <- recur replacement ;;
                  ret (dict_update data (to_dict other))
              | None =>
                  ret (mkDict (Some value) (d_extlangs data)
                         (d_script data) (d_territory data)
                         (d_variants data) (d_extensions data)
                         (d_private data))
              end
            else
              ret (mkDict (Some value) (d_extlangs data) (d_script data)
                     (d_territory data) (d_variants data)
                     (d_extensions data) (d_private data))
        | st_territory =>
            let value' :=
              if normalize then
                match table_get (TERRITORY_REPLACEMENTS env)
                        (lower value) with
                | Some r => r
                | None => value
                end
              else value in
            ret (mkDict (d_language data) (d_extlangs data) (d_script data)
                   (Some value') (d_variants data) (d_extensions data)
                   (d_private data))
        | st_grandfathered =>
            ret (mkDict (Some value) (d_extlangs data) (d_script data)
                   (d_territory data) (d_variants data)
                   (d_extensions data) (d_private data))
        | st_script =>
            ret (mkDict (d_language data) (d_extlangs data) (Some value)
                   (d_territory data) (d_variants data)
                   (d_extensions data) (d_private data))
        | st_private =>
            ret (mkDict (d_language data) (d_extlangs data) (d_script data)
                   (d_territory data) (d_variants data)
                   (d_extensions data) (Some value))
        end ;;
      get_components recur normalize components' data'
  end.

(** [Language.get] with [depth] nested calls still allowed. *)
Fixpoint get_depth (depth : nat) (tag : tag_arg) (normalize : bool)
  : M Language :=
  match depth with
  | O => raise RecursionError
  | S depth' =>
      match tag, normalize with
      | TagLang l, false => ret l
      | _, _ =>
          let tag :=
            match tag with
            | TagLang l => to_tag l
            | TagStr s => s
            end in
          let tag_lower := lower tag in
          let tag :=
            if normalize then
              match table_get (LANGUAGE_REPLACEMENTS env) tag_lower with
              | Some r => r
              | None => tag
              end
            else tag in
          match parse_tag env tag with
          | Raise e => raise e
          | Ok components =>
              data <- get_components
                        (fun t => get_depth depth' (TagStr t) normalize)
                        normalize components empty_dict ;;
              make_kwargs data
          end
      end
  end.

(** [Language.get]. *)
Definition get (tag : tag_arg) (normalize : bool) : M Language :=
  get_depth (S (recursion_limit env)) tag normalize.

(** The [for broader in self.broaden()] loop of [maximize]. *)
Fixpoint maximize_loop (self : Language) (broader : list Language)
  : M Language :=
  match broader with
  | [] =>
      raise (RuntimeError likely_subtags_error)
  | b :: broader' =>
      let tag := to_tag b in
      match table_get (LIKELY_SUBTAGS env) tag with
      | Some likely =>
          result <- get (TagStr likely) false ;;
          update result self
      | None => maximize_loop self broader'
      end
  end.

(** [Language.maximize]. *)
Definition maximize (self : Language) : M Language :=
  broader <- broaden self ;;
  maximize_loop self broader.

(** The triple [distance] builds for one side. *)
Definition distance_triple (l : Language) : M triple :=
  if is_none (language l) && is_none (script l) && is_none (territory l)
  then ret (Some "und", Some "Zzzz", Some "ZZ")
  else
    macro <- prefer_macrolanguage l ;;
    complete <- maximize macro ;;
    ret (language complete, script complete, territory complete).

(** [Language.distance]. *)
Definition distance (self supported : Language) : M Z :=
  if __eq__ supported self then ret 0%Z
  else
    desired_triple <- distance_triple self ;;
    supported_triple <- distance_triple supported ;;
    ret (tuple_distance_cached env desired_triple supported_triple).

(** [standardize_tag]. *)
Definition standardize_tag (tag : tag_arg) (macro : bool) : M string :=
  langdata <- get tag true ;;
  langdata <- (if macro then prefer_macrolanguage langdata
               else ret langdata) ;;
  simplified <- simplify_script langdata ;;
  ret (to_tag simplified).

(** [tag_distance]. *)
Definition tag_distance (desired supported : tag_arg) : M Z :=
  desired_obj <- get desired true ;;
  supported_obj <- get supported true ;;
  distance desired_obj supported_obj.

(** [x == y] for two values that are each a [str] or a [Language]. *)
Definition tag_arg_eqb (x y : tag_arg) : bool :=
  match x, y with
  | TagStr a, TagStr b => a =? b
  | TagLang a, TagLang b => __eq__ a b
  | _, _ => false
  end.

(** [x in l]. *)
Definition tag_arg_in (x : tag_arg) (l : list tag_arg) : bool :=
  existsb (tag_arg_eqb x) l.

(** [[(s, tag_distance(desired, s)) for s in supported_languages]]. *)
Fixpoint match_distances_of (desired : tag_arg)
    (supported_languages : list tag_arg) : M (list (tag_arg * Z)) :=
  match supported_languages with
  | [] => ret []
  | supported :: rest =>
      d <- tag_distance desired supported ;;
      tl <- match_distances_of desired rest ;;
      ret ((supported, d) :: tl)
  end.

(** [list.sort(key=itemgetter(1))]: a stable sort on the distance. *)
Fixpoint insert_by_distance (x : tag_arg * Z) (l : list (tag_arg * Z))
  : list (tag_arg * Z) :=
  match l with
  | [] => [x]
  | y :: l' =>
      if (snd x <=? snd y)%Z then x :: l
      else y :: insert_by_distance x l'
  end.

Definition sort_by_distance (l : list (tag_arg * Z)) : list (tag_arg * Z) :=
  fold_right insert_by_distance [] l.

(** [closest_match]. *)
Definition closest_match (desired_language : tag_arg)
    (supported_languages : list tag_arg) (max_distance : Z)
  : M (tag_arg * Z) :=
  if tag_arg_in desired_language supported_languages
  then ret (desired_language, 0%Z)
  else
    standardized <- standardize_tag desired_language false ;;
    let desired_language := TagStr standardized in
    if tag_arg_in desired_language supported_languages
    then ret (desired_language, 0%Z)
    else
      match_distances <- match_distances_of desired_language
                           supported_languages ;;
      let match_distances :=
        filter (fun sd => (snd sd <=? max_distance)%Z) match_distances
        ++ [(TagStr "und", 1000%Z)] in
      match sort_by_distance match_distances with
      | first :: _ => ret first
      | [] => raise IndexError
      end.

End WithEnvironment.

(** ** The distance engine *)

(** Modelled from the spec: [langcodes.language_distance], from which the
    module imports [tuple_distance_cached], and the distance rule table are
    not among the sources.  Section 4.3 of the specification, steps 4 to 6:
    the rule table is keyed by layered specificity (desired key, then
    supported key, then the distance); a single pre-combined distance is
    selected when the table has one for the exact pair of full triples;
    otherwise the language, script and territory layers are looked up at
    their own specificity and summed, a layer with no rule taking the
    default distance of a complete mismatch of that layer; the summed or
    selected distance is clamped to the legal range 0 to 134. *)
Record distance_rules : Type := mkDistanceRules {
  rule_table : list (string * list (string * Z));
  default_language_distance : Z;
  default_script_distance : Z;
  default_territory_distance : Z
}.

(** Modelled from the spec: the inner level of the distance rule table,
    which is not among the sources (section 6: desired key, then
    supported key, then the distance). *)
Fixpoint supported_get (d : list (string * Z)) (key : string) : option Z :=
  match d with
  | [] => None
  | (k, v) :: d' => if key =? k then Some v else supported_get d' key
  end.

(** Modelled from the spec: the lookup of a rule in the distance rule
    table, which is not among the sources (section 6). *)
Fixpoint rule_get (d : list (string * list (string * Z)))
    (desired supported : string) : option Z :=
  match d with
  | [] => None
  | (k, v) :: d' =>
      if desired =? k then supported_get v supported
      else rule_get d' desired supported
  end.

(** Modelled from the spec: the text of one field of a triple in a rule
    key of the distance rule table, which is not among the sources. *)
Definition subtag_text (x : option string) : string :=
  match x with
  | Some s => s
  | None => ""
  end.

(** Modelled from the spec: the rule keys of a triple in the distance
    rule table, which is not among the sources, from language-only to the
    full triple (section 4.3, step 4). *)
Definition key_language (t : triple) : string :=
  let '(l, _, _) := t in subtag_text l.

(** Modelled from the spec: the language-and-script key of the distance
    rule table, which is not among the sources (section 4.3, step 4). *)
Definition key_script (t : triple) : string :=
  let '(l, s, _) := t in (subtag_text l ++ "_" ++ subtag_text s)%string.

(** Modelled from the spec: the full-triple key of the distance rule
    table, which is not among the sources (section 4.3, step 4). *)
Definition key_territory (t : triple) : string :=
  let '(l, s, r) := t in
  (subtag_text l ++ "_" ++ subtag_text s ++ "_" ++ subtag_text r)%string.

(** Modelled from the spec: the contribution of one layer in
    [langcodes.language_distance], which is not among the sources: nothing
    when the two keys agree, the rule when there is one, the default of
    the layer otherwise (section 4.3, steps 4 and 5). *)
Definition layer_distance (R : distance_rules)
    (desired_key supported_key : string) (default : Z) : Z :=
  if desired_key =? supported_key then 0%Z
  else
    match rule_get (rule_table R) desired_key supported_key with
    | Some d => d
    | None => default
    end.

(** Modelled from the spec: the clamp of [langcodes.language_distance],
    which is not among the sources, to the legal range 0 to 134
    (section 4.3, step 6). *)
Definition clamp_distance (d : Z) : Z := Z.max 0 (Z.min 134 d).

(** Modelled from the spec: [tuple_distance_cached] of
    [langcodes.language_distance], which is not among the sources
    (section 4.3, steps 4 to 6): the pre-combined distance of the exact
    pair if the table has one, else the sum of the three layers; clamped. *)
Definition tuple_distance_spec (R : distance_rules)
    (desired supported : triple) : Z :=
  clamp_distance
    match rule_get (rule_table R) (key_territory desired)
            (key_territory supported) with
    | Some combined => combined
    | None =>
        (layer_distance R (key_language desired) (key_language supported)
           (default_language_distance R)
         + layer_distance R (key_script desired) (key_script supported)
             (default_script_distance R)
         + layer_distance R (key_territory desired) (key_territory supported)
             (default_territory_distance R))%Z
    end.

(** ** Invariants of the store and conditions on the reference data *)

(** The key under which [make] interns [o]. *)
Definition values_of (o : Language) : values_t :=
  (language o, tuple_or_empty (extlangs o), script o, territory o,
   tuple_or_empty (variants o), tuple_or_empty (extensions o), private o).

(** The serialization of the attributes in a key. *)
Definition tag_of_values (k : values_t) : string :=
  let '(l, e, s, t, v, x, p) := k in
  render_tag l (Some e) s t (Some v) (Some x) p.

(** [o] is as [__init__] leaves an object: [_str_tag] is the
    serialization of its attributes. *)
Definition well_formed (o : Language) : Prop :=
  _str_tag o
  = Some (render_tag (language o) (extlangs o) (script o) (territory o)
            (variants o) (extensions o) (private o)).

(** What holds of the store after any sequence of constructor and
    [make] calls from the empty store. *)
Record wf_store (st : store) : Prop := mkWfStore {
  wf_ids : forall i o, nth_error (heap st) i = Some o -> py_id o = i;
  wf_objects : forall o, In o (heap st) -> well_formed o;
  wf_instances : forall k o,
    instances_lookup k (_INSTANCES st) = Some o ->
    values_of o = k /\ In o (heap st)
}.

(** [st'] is [st] after some further calls of the constructor and of
    [make].  The methods of the class change the store through them;
    the one exception in the source, the in-place append of
    [Language.get] with [normalize=True], is described at
    [get_components]. *)
Inductive evolves (st : store) : store -> Prop :=
| evolves_refl : evolves st st
| evolves_init st' l e s t v x p :
    evolves st st' -> evolves st (snd (__init__ l e s t v x p st'))
| evolves_make st' l e s t v x p :
    evolves st st' -> evolves st (snd (make l e s t v x p st')).

Definition is_some {A} (x : option A) : bool := negb (is_none x).

(** Modelled from the spec: the table [LIKELY_SUBTAGS] is data of
    [langcodes.data_dicts], which is not among the sources.  Section 4.2
    of the specification: the fully empty tag must always have a table
    entry. *)
Definition likely_has_und (env : environment) : bool :=
  is_some (table_get (LIKELY_SUBTAGS env) "und").

(** Modelled from the spec: [LIKELY_SUBTAGS] and [parse_tag] are not
    among the sources.  Section 6 of the specification: the table maps a
    partial tag string to a tag string; here, one the parser accepts. *)
Definition likely_values_parse (env : environment) : bool :=
  forallb
    (fun kv =>
       match parse_tag env (snd kv) with
       | Ok _ => true
       | Raise _ => false
       end)
    (LIKELY_SUBTAGS env).

(** Modelled from the spec: what the parser returns on a maximized tag
    string (section 4.1 for the order of the subtags, the glossary for
    maximization): a language other than [und], a script and a territory,
    and nothing else. *)
Definition is_maximized (components : list (subtag_type * string)) : bool :=
  match components with
  | [(st_language, l); (st_script, s); (st_territory, t)] =>
      negb (l =? "") && negb (l =? "und") && negb (s =? "")
      && negb (t =? "")
  | _ => false
  end.

(** Modelled from the spec: [LIKELY_SUBTAGS] is not among the sources.
    Section 6 of the specification: the likely-subtags map sends a partial
    tag string to a maximized tag string. *)
Definition likely_values_maximized (env : environment) : bool :=
  forallb
    (fun kv =>
       match parse_tag env (snd kv) with
       | Ok components => is_maximized components
       | Raise _ => false
       end)
    (LIKELY_SUBTAGS env).

(** The condition under which [simplify_script] drops the script, in the
    words of the specification: the language is set and the script is its
    registered default. *)
Definition script_is_default (env : environment) (t : Language) : bool :=
  match language t, script t with
  | Some l, Some s =>
      negb (l =? "") && negb (s =? "")
      && opt_str_eqb (table_get (DEFAULT_SCRIPTS env) l) (Some s)
  | _, _ => false
  end.

(** ** A small environment to run the definitions in *)

(** Modelled from the spec: [langcodes.tag_parser.parse_tag] is not among
    the sources; this stand-in classifies a handful of tags as section 4.1
    of the specification does, and rejects every other string. *)
Definition sample_parse_tag (tag : string)
  : result (list (subtag_type * string)) :=
  if tag =? "en-Latn-US" then
    Ok [(st_language, "en"); (st_script, "Latn"); (st_territory, "US")]
  else if tag =? "hi-Deva-IN" then
    Ok [(st_language, "hi"); (st_script, "Deva"); (st_territory, "IN")]
  else if tag =? "zh-Hant-TW" then
    Ok [(st_language, "zh"); (st_script, "Hant"); (st_territory, "TW")]
  else if tag =? "en" then Ok [(st_language, "en")]
  else if tag =? "en-gb-oed" then Ok [(st_grandfathered, "en-gb-oed")]
  else Raise (LanguageTagError tag).

Definition sample_rules : distance_rules :=
  mkDistanceRules [("zh_Hans", [("zh_Hant", 15%Z)])] 80 50 4.

Definition sample_env : environment :=
  mkEnvironment sample_parse_tag (tuple_distance_spec sample_rules)
    [("en", "Latn"); ("hi", "Deva"); ("yi", "Hebr")]
    [("en-gb-oed", "en-GB-oxendict")]
    []
    [("cmn", "zh")]
    [("und", "en-Latn-US"); ("und-IN", "hi-Deva-IN"); ("zh-TW", "zh-Hant-TW")]
    1000.

(** The same environment with an empty likely-subtags table. *)
Definition no_likely_env : environment :=
  mkEnvironment sample_parse_tag (tuple_distance_spec sample_rules)
    [] [] [] [] [] 1000.

(** Two tables outside the conditions above: one with no entry for
    [und], one with a value that is not a maximized tag string. *)
Definition no_und_env : environment :=
  mkEnvironment sample_parse_tag (tuple_distance_spec sample_rules)
    [] [] [] [] [("und-IN", "hi-Deva-IN")] 1000.

Definition partial_value_env : environment :=
  mkEnvironment sample_parse_tag (tuple_distance_spec sample_rules)
    [] [] [] [] [("und", "en"); ("en", "en-Latn-US")] 1000.

(** Five objects, numbered in the order in which [sample_store] builds
    them: [und-IN], [zh-TW], [en-US] given as language and territory,
    [en-US] given as a language, and [en-Latn]. *)
Definition und_IN : Language :=
  mkLanguage 0 None None None (Some "IN") None None None (Some "und-IN").

Definition zh_TW : Language :=
  mkLanguage 1 (Some "zh") None None (Some "TW") None None None
    (Some "zh-TW").

Definition en_US : Language :=
  mkLanguage 2 (Some "en") None None (Some "US") None None None
    (Some "en-US").

Definition en_US_language : Language :=
  mkLanguage 3 (Some "en-US") None None None None None None (Some "en-US").

Definition en_Latn : Language :=
  mkLanguage 4 (Some "en") None (Some "Latn") None None None None
    (Some "en-Latn").

Definition sample_store : store :=
  snd (make (Some "en") None (Some "Latn") None None None None
  (snd (make (Some "en-US") None None None None None None
  (snd (make (Some "en") None None (Some "US") None None None
  (snd (make (Some "zh") None None (Some "TW") None None None
  (snd (make None None None (Some "IN") None None None
          empty_store))))))))).

(** The next two objects built when [und_IN] is maximized in
    [sample_store]: the empty tag and the maximized tag. *)
Definition und_tag : Language :=
  mkLanguage 5 None None None None None None None (Some "und").

Definition hi_Deva_IN : Language :=
  mkLanguage 6 (Some "hi") None (Some "Deva") (Some "IN") None None None
    (Some "hi-Deva-IN").

(** No interned instance holds an empty sequence where [None] would do;
    so it is when no caller passes an empty list to [make]. *)
Definition no_empty_sequences (st : store) : Prop :=
  forall k o,
    instances_lookup k (_INSTANCES st) = Some o ->
    extlangs o <> Some [] /\ variants o <> Some []
    /\ extensions o <> Some [].

(** Further objects built on top of [sample_store]: [en] with two
    variants in either order, and the results of a few calls. *)
Definition en_fonipa_1996 : Language :=
  mkLanguage 5 (Some "en") None None None (Some ["fonipa"; "1996"]) None
    None (Some "en-1996-fonipa").

Definition en_1996_fonipa : Language :=
  mkLanguage 6 (Some "en") None None None (Some ["1996"; "fonipa"]) None
    None (Some "en-1996-fonipa").

Definition variants_store : store :=
  snd (make (Some "en") None None None (Some ["1996"; "fonipa"]) None None
  (snd (make (Some "en") None None None (Some ["fonipa"; "1996"]) None None
          sample_store))).

Definition en_GB : Language :=
  mkLanguage 5 (Some "en") None None (Some "GB") None None None
    (Some "en-GB").

Definition en_Latn_TW : Language :=
  mkLanguage 5 (Some "en") None (Some "Latn") (Some "TW") None None None
    (Some "en-Latn-TW").

Definition en_tag : Language :=
  mkLanguage 5 (Some "en") None None None None None None (Some "en").

Definition en_Latn_US : Language :=
  mkLanguage 5 (Some "en") None (Some "Latn") (Some "US") None None None
    (Some "en-Latn-US").

Definition sample_names : table := [("en", "English"); ("fr", "anglais")].

(** ** Further functions of the module *)

(** The tuple [values] that [make] builds from its arguments. *)
Definition make_values (l : option string) (e : option (list string))
    (s t : option string) (v x : option (list string)) (p : option string)
  : values_t :=
  (l, tuple_or_empty e, s, t, tuple_or_empty v, tuple_or_empty x, p).

(** [Language._searchable_form]. *)
Definition _searchable_form (env : environment) (self : Language)
  : M Language :=
  filtered <- _filter_attributes self
                [attr_language; attr_script; attr_territory] ;;
  simplified <- simplify_script env filtered ;;
  prefer_macrolanguage env simplified.

(** [best_match]. *)
Definition best_match (env : environment) (desired_language : tag_arg)
    (supported_languages : list tag_arg) (min_score : Z) : M (tag_arg * Z) :=
  let max_distance := (100 - min_score)%Z in
  r <- closest_match env desired_language supported_languages max_distance ;;
  let '(supported, distance) := r in
  let score := Z.max 0 (100 - distance) in
  ret (supported, score).

Definition DEFAULT_LANGUAGE : string := "en".

(** [d.keys()]: each key once, in the order of its first binding. *)
Fixpoint table_keys (d : table) : list string :=
  match d with
  | [] => []
  | (k, _) :: d' => k :: filter (fun k' => negb (k' =? k)) (table_keys d')
  end.

(** [Language._best_name]; [names] maps language tags to names. *)
Definition _best_name (env : environment) (names : table)
    (language : tag_arg) (max_distance : Z) : M (option string) :=
  let possible_languages := sorted (table_keys names) in
  r <- closest_match env language (map TagStr possible_languages)
         max_distance ;;
  let '(target_language, score) := r in
  match target_language with
  | TagStr target =>
      match table_get names target with
      | Some name => ret (Some name)
      | None => ret (table_get names DEFAULT_LANGUAGE)
      end
  | TagLang _ => ret (table_get names DEFAULT_LANGUAGE)
  end.

(** The subtags of [t] in the order of its serialization, each with its
    type: what a parser that inverts [to_tag] returns on [t.to_tag()]. *)
Definition components_of (t : Language) : list (subtag_type * string) :=
  [(st_language,
    match language t with
    | Some l => if truthy_str (language t) then l else "und"
    | None => "und"
    end)]
  ++ map (pair st_extlang) (sorted (tuple_or_empty (extlangs t)))
  ++ match script t with
     | Some s => if truthy_str (script t) then [(st_script, s)] else []
     | None => []
     end
  ++ match territory t with
     | Some s => if truthy_str (territory t) then [(st_territory, s)] else []
     | None => []
     end
  ++ map (pair st_variant) (sorted (tuple_or_empty (variants t)))
  ++ map (pair st_extension) (tuple_or_empty (extensions t))
  ++ match private t with
     | Some s => if truthy_str (private t) then [(st_private, s)] else []
     | None => []
     end.

(** One turn of the loop of [Language.get] when [normalize] is false:
    what it does to [data]. *)
Definition no_normalize_step (data : dict) (c : subtag_type * string)
  : dict :=
  let '(typ, value) := c in
  match typ with
  | st_extlang =>
      mkDict (d_language data) (setdefault_append (d_extlangs data) value)
        (d_script data) (d_territory data) (d_variants data)
        (d_extensions data) (d_private data)
  | st_variant =>
      mkDict (d_language data) (d_extlangs data) (d_script data)
        (d_territory data) (setdefault_append (d_variants data) value)
        (d_extensions data) (d_private data)
  | st_extension =>
      mkDict (d_language data) (d_extlangs data) (d_script data)
        (d_territory data) (d_variants data)
        (setdefault_append (d_extensions data) value) (d_private data)
  | st_language =>
      if value =? "und" then data
      else mkDict (Some value) (d_extlangs data) (d_script data)
             (d_territory data) (d_variants data) (d_extensions data)
             (d_private data)
  | st_territory =>
      mkDict (d_language data) (d_extlangs data) (d_script data)
        (Some value) (d_variants data) (d_extensions data) (d_private data)
  | st_grandfathered =>
      mkDict (Some value) (d_extlangs data) (d_script data)
        (d_territory data) (d_variants data) (d_extensions data)
        (d_private data)
  | st_script =>
      mkDict (d_language data) (d_extlangs data) (Some value)
        (d_territory data) (d_variants data) (d_extensions data)
        (d_private data)
  | st_private =>
      mkDict (d_language data) (d_extlangs data) (d_script data)
        (d_territory data) (d_variants data) (d_extensions data)
        (Some value)
  end.

(** The order in which [sorted] arranges strings. *)
Definition leb_string (a b : string) : Prop := String.leb a b = true.

(** [a or b] on the tuples of two sequence attributes. *)
Definition or_tuple (a b : list string) : list string :=
  match a with
  | [] => b
  | _ :: _ => a
  end.

(** All the attributes of [o] are empty. *)
Definition all_empty (o : Language) : bool :=
  negb (truthy_str (language o)) && negb (truthy_seq (extlangs o))
  && negb (truthy_str (script o)) && negb (truthy_str (territory o))
  && negb (truthy_seq (variants o)) && negb (truthy_seq (extensions o))
  && negb (truthy_str (private o)).

(** ** The table entry that maximize finds *)

(** The value of [LIKELY_SUBTAGS] under the first serialization in
    [broader] that is a key: what the loop of [maximize] reads. *)
Fixpoint first_likely (env : environment) (broader : list Language)
  : option string :=
  match broader with
  | [] => None
  | b :: broader' =>
      match table_get (LIKELY_SUBTAGS env) (to_tag b) with
      | Some likely => Some likely
      | None => first_likely env broader'
      end
  end.

(** [m] has a non-empty attribute of the kind of the subtag [c]; a
    language subtag [und], which [Language.get] passes over, asks for
    nothing. *)
Definition has_subtag_kind (m : Language) (c : subtag_type * string)
  : bool :=
  match fst c with
  | st_language => (snd c =? "und") || truthy_str (language m)
  | st_grandfathered => truthy_str (language m)
  | st_extlang => truthy_seq (extlangs m)
  | st_script => truthy_str (script m)
  | st_territory => truthy_str (territory m)
  | st_variant => truthy_seq (variants m)
  | st_extension => truthy_seq (extensions m)
  | st_private => truthy_str (private m)
  end.

(** The entry of [LIKELY_SUBTAGS] that [maximize] finds for [m] in the
    store [st] parses, and holds no subtag of a kind that [m] lacks. *)
Definition likely_adds_nothing (env : environment) (m : Language)
    (st : store) : bool :=
  match broaden m st with
  | (Ok broader, _) =>
      match first_likely env broader with
      | Some likely =>
          match parse_tag env likely with
          | Ok components => forallb (has_subtag_kind m) components
          | Raise _ => false
          end
      | None => false
      end
  | (Raise _, _) => false
  end.












(** ** Specifications of computations *)

(** [c], run in [st], returns a value and a store that satisfy [Q]; the
    final store is well formed and evolved from [st]. *)
Definition ensures {A} (c : M A) (st : store) (Q : A -> store -> Prop)
  : Prop :=
  exists a st',
    c st = (Ok a, st') /\ wf_store st' /\ evolves st st' /\ Q a st'.

(** Whatever [c] does, returning or raising, it changes the store by
    constructor and [make] calls only. *)
Definition evolving {A} (c : M A) : Prop :=
  forall st r st', c st = (r, st') -> evolves st st'.

(** * Properties *)

(** ** Keys *)

Lemma opt_str_eqb_eq a b : opt_str_eqb a b = true <-> a = b.
Proof.
  destruct a as [x|], b as [y|]; simpl; split; intros H;
    try congruence; try reflexivity.
  - apply String.eqb_eq in H. congruence.
  - inversion H. apply String.eqb_refl.
Qed.

Lemma seq_eqb_eq a : forall b, seq_eqb a b = true <-> a = b.
Proof.
  induction a as [|x a IH]; intros [|y b]; simpl; split; intros H;
    try congruence; try reflexivity.
  - apply andb_true_iff in H. destruct H as [Hx Hl].
    apply String.eqb_eq in Hx. apply IH in Hl. congruence.
  - inversion H; subst. rewrite String.eqb_refl. simpl. now apply IH.
Qed.

Lemma values_eqb_eq (a b : values_t) : values_eqb a b = true <-> a = b.
Proof.
  destruct a as [[[[[[l1 e1] s1] t1] v1] x1] p1].
  destruct b as [[[[[[l2 e2] s2] t2] v2] x2] p2].
  unfold values_eqb. rewrite !andb_true_iff.
  rewrite !opt_str_eqb_eq, !seq_eqb_eq.
  split.
  - intros [[[[[[-> ->] ->] ->] ->] ->] ->]. reflexivity.
  - intros H. inversion H. repeat split.
Qed.

Lemma values_eqb_refl (a : values_t) : values_eqb a a = true.
Proof. now apply values_eqb_eq. Qed.

(** ** The monad *)

Lemma bind_ok {A B} (c : M A) (k : A -> M B) st a st1 :
  c st = (Ok a, st1) -> bind c k st = k a st1.
Proof. intros H. unfold bind. now rewrite H. Qed.

Lemma bind_raise {A B} (c : M A) (k : A -> M B) st e st1 :
  c st = (Raise e, st1) -> bind c k st = (Raise e, st1).
Proof. intros H. unfold bind. now rewrite H. Qed.

Lemma bind_inv {A B} (c : M A) (k : A -> M B) st r st' :
  bind c k st = (r, st') ->
  (exists a st1, c st = (Ok a, st1) /\ k a st1 = (r, st'))
  \/ (exists e, c st = (Raise e, st') /\ r = Raise e).
Proof.
  unfold bind. destruct (c st) as [[a|e] st1]; intros H.
  - left. now exists a, st1.
  - right. exists e. inversion H. now subst.
Qed.

(** ** The store *)

Lemma evolves_trans st1 st2 st3 :
  evolves st1 st2 -> evolves st2 st3 -> evolves st1 st3.
Proof.
  intros H12 H23. induction H23.
  - assumption.
  - now apply evolves_init.
  - now apply evolves_make.
Qed.

(** What one call of [make] does. *)
Lemma make_cases l e s t v x p st :
  let key := (l, tuple_or_empty e, s, t, tuple_or_empty v,
              tuple_or_empty x, p) in
  (exists o, instances_lookup key (_INSTANCES st) = Some o
             /\ make l e s t v x p st = (Ok o, st))
  \/ (instances_lookup key (_INSTANCES st) = None
      /\ let o := mkLanguage (length (heap st)) l e s t v x p
                    (Some (render_tag l e s t v x p)) in
         make l e s t v x p st
         = (Ok o, mkStore (heap st ++ [o]) ((key, o) :: _INSTANCES st))).
Proof.
  intros key. unfold make, bind, INSTANCES_get. fold key.
  destruct (instances_lookup key (_INSTANCES st)) as [o|] eqn:E.
  - left. exists o. split; reflexivity.
  - right. split; reflexivity.
Qed.

Lemma init_wf l e s t v x p st :
  wf_store st -> wf_store (snd (__init__ l e s t v x p st)).
Proof.
  intros [Hid Hobj Hinst]. simpl. constructor; simpl.
  - intros i o Hnth.
    destruct (Nat.lt_ge_cases i (length (heap st))) as [Hlt|Hge].
    + rewrite nth_error_app1 in Hnth by assumption. now apply Hid.
    + rewrite nth_error_app2 in Hnth by assumption.
      destruct (i - length (heap st)) as [|n] eqn:En.
      * simpl in Hnth. inversion Hnth; subst. simpl. lia.
      * simpl in Hnth. destruct n; discriminate.
  - intros o Hin. apply in_app_or in Hin. destruct Hin as [Hin|[<-|[]]].
    + now apply Hobj.
    + reflexivity.
  - intros k o Hk. destruct (Hinst k o Hk) as [Hv Hin].
    split; [assumption | apply in_or_app; now left].
Qed.

Lemma make_wf l e s t v x p st :
  wf_store st -> wf_store (snd (make l e s t v x p st)).
Proof.
  intros Hwf.
  destruct (make_cases l e s t v x p st) as [[o [_ ->]]|[_ ->]];
    [assumption|].
  destruct Hwf as [Hid Hobj Hinst]. simpl. constructor; simpl.
  - intros i o Hnth.
    destruct (Nat.lt_ge_cases i (length (heap st))) as [Hlt|Hge].
    + rewrite nth_error_app1 in Hnth by assumption. now apply Hid.
    + rewrite nth_error_app2 in Hnth by assumption.
      destruct (i - length (heap st)) as [|n] eqn:En.
      * simpl in Hnth. inversion Hnth; subst. simpl. lia.
      * simpl in Hnth. destruct n; discriminate.
  - intros o Hin. apply in_app_or in Hin. destruct Hin as [Hin|[<-|[]]].
    + now apply Hobj.
    + reflexivity.
  - intros k o.
    destruct (values_eqb k _) eqn:Ek.
    + intros Ho. inversion Ho; subst. apply values_eqb_eq in Ek. subst k.
      split; [reflexivity | apply in_or_app; right; now left].
    + intros Hk. destruct (Hinst k o Hk) as [Hv Hin].
      split; [assumption | apply in_or_app; now left].
Qed.

Lemma evolves_wf st st' : evolves st st' -> wf_store st -> wf_store st'.
Proof.
  intros H Hwf. induction H.
  - assumption.
  - now apply init_wf.
  - now apply make_wf.
Qed.

Lemma empty_store_wf : wf_store empty_store.
Proof.
  constructor; simpl.
  - intros [|i] o H; discriminate.
  - intros o [].
  - intros k o H. discriminate.
Qed.

(** Every store reached from the empty one is well formed. *)
Lemma reachable_wf st : evolves empty_store st -> wf_store st.
Proof. intros H. exact (evolves_wf _ _ H empty_store_wf). Qed.

(** An interned instance stays interned, under the same key. *)
Lemma evolves_lookup st st' k o :
  evolves st st' ->
  instances_lookup k (_INSTANCES st) = Some o ->
  instances_lookup k (_INSTANCES st') = Some o.
Proof.
  intros H Hk. induction H.
  - assumption.
  - simpl. assumption.
  - destruct (make_cases l e s t v x p st') as [[o' [_ ->]]|[Hnone ->]];
      simpl; [assumption|].
    destruct (values_eqb k _) eqn:Ek; [|assumption].
    apply values_eqb_eq in Ek. subst k. congruence.
Qed.

(** Objects are never removed from the heap. *)
Lemma evolves_heap st st' o :
  evolves st st' -> In o (heap st) -> In o (heap st').
Proof.
  intros H Hin. induction H.
  - assumption.
  - simpl. apply in_or_app. now left.
  - destruct (make_cases l e s t v x p st') as [[o' [_ ->]]|[_ ->]];
      simpl; [assumption|].
    apply in_or_app. now left.
Qed.

(** [make] returns the instance interned under the key of its arguments. *)
Lemma make_ensures l e s t v x p st :
  wf_store st ->
  ensures (make l e s t v x p) st
    (fun o st' =>
       let key := (l, tuple_or_empty e, s, t, tuple_or_empty v,
                   tuple_or_empty x, p) in
       In o (heap st') /\ values_of o = key
       /\ instances_lookup key (_INSTANCES st') = Some o).
Proof.
  intros Hwf.
  assert (Hwf' := make_wf l e s t v x p st Hwf).
  assert (Hev : evolves st (snd (make l e s t v x p st)))
    by (apply evolves_make, evolves_refl).
  destruct (make_cases l e s t v x p st) as [[o [Hk Hm]]|[Hk Hm]];
    cbv zeta in Hm; rewrite Hm in Hwf', Hev; simpl in Hwf', Hev.
  - exists o, st. destruct (wf_instances st Hwf _ _ Hk) as [Hv Hin].
    split; [assumption|]. split; [assumption|]. split; [assumption|].
    cbv zeta. auto.
  - eexists _, _. split; [exact Hm|].
    split; [assumption|]. split; [assumption|]. cbv zeta.
    split; [simpl; apply in_or_app; right; now left|].
    split; [reflexivity|].
    cbn [_INSTANCES instances_lookup]. now rewrite values_eqb_refl.
Qed.

(** Once a key is interned, [make] on that key returns the interned
    instance and leaves the store as it is. *)
Lemma make_same_key l e s t v x p st o :
  instances_lookup
    (l, tuple_or_empty e, s, t, tuple_or_empty v, tuple_or_empty x, p)
    (_INSTANCES st) = Some o ->
  make l e s t v x p st = (Ok o, st).
Proof.
  intros Hk.
  destruct (make_cases l e s t v x p st) as [[o' [Hk' Hm]]|[Hk' _]];
    congruence.
Qed.

Lemma make_interns l e s t v x p st :
  exists o,
    make l e s t v x p st = (Ok o, snd (make l e s t v x p st))
    /\ instances_lookup
         (l, tuple_or_empty e, s, t, tuple_or_empty v, tuple_or_empty x, p)
         (_INSTANCES (snd (make l e s t v x p st))) = Some o.
Proof.
  destruct (make_cases l e s t v x p st) as [[o [Hk Hm]]|[Hk Hm]];
    cbv zeta in Hm; rewrite Hm; cbn [snd].
  - now exists o.
  - eexists. split; [reflexivity|].
    cbn [_INSTANCES instances_lookup]. now rewrite values_eqb_refl.
Qed.

(** C8. [Language.make] interns its instances.  A call returns an object
    [o] that is built (it is in the heap), carries the attribute values
    of the call (its key is the tuple [make] computes) and is registered
    in [_INSTANCES] under that tuple.  When the tuple was seen before, [o]
    is the previously built instance and nothing is built; when it was
    not, [o] is the one new object, with exactly the attributes given.
    Whatever further constructions follow, a call with the same attribute
    values returns the very same object (the same [py_id]) and leaves the
    store unchanged, so no second object is built. *)
Theorem make_returns_interned_instance l e s t v x p st st2 :
  wf_store st ->
  evolves (snd (make l e s t v x p st)) st2 ->
  exists o,
    make l e s t v x p st = (Ok o, snd (make l e s t v x p st))
    /\ In o (heap (snd (make l e s t v x p st)))
    /\ values_of o
       = (l, tuple_or_empty e, s, t, tuple_or_empty v, tuple_or_empty x, p)
    /\ instances_lookup
         (l, tuple_or_empty e, s, t, tuple_or_empty v, tuple_or_empty x, p)
         (_INSTANCES (snd (make l e s t v x p st))) = Some o
    /\ (forall o0,
          instances_lookup
            (l, tuple_or_empty e, s, t, tuple_or_empty v, tuple_or_empty x,
             p) (_INSTANCES st) = Some o0 ->
          o = o0 /\ snd (make l e s t v x p st) = st)
    /\ (instances_lookup
          (l, tuple_or_empty e, s, t, tuple_or_empty v, tuple_or_empty x, p)
          (_INSTANCES st) = None ->
        o = mkLanguage (length (heap st)) l e s t v x p
              (Some (render_tag l e s t v x p))
        /\ heap (snd (make l e s t v x p st)) = heap st ++ [o])
    /\ make l e s t v x p st2 = (Ok o, st2)
    /\ In o (heap st2).
Proof.
  intros Hwf Hev.
  destruct (make_ensures l e s t v x p st Hwf)
    as [o [st1 [Hm [Hwf1 [_ [Hin [Hv Hk]]]]]]].
  cbv zeta in Hv, Hk.
  assert (Hst1 : snd (make l e s t v x p st) = st1) by now rewrite Hm.
  rewrite Hst1 in *.
  exists o. split; [assumption|]. split; [assumption|].
  split; [assumption|]. split; [assumption|].
  split; [|split; [|split]].
  - intros o0 Hk0.
    rewrite (make_same_key l e s t v x p st o0 Hk0) in Hm.
    inversion Hm; subst. now split.
  - intros Hk0.
    destruct (make_cases l e s t v x p st) as [[o' [Hk' _]]|[_ Hm']];
      [congruence|].
    cbv zeta in Hm'. rewrite Hm' in Hm. inversion Hm; subst.
    split; reflexivity.
  - apply make_same_key. eapply evolves_lookup; eassumption.
  - eapply evolves_heap; eassumption.
Qed.

(** The interning key ignores the difference between an absent and an
    empty sequence: both calls below return one object. *)
Lemma make_none_or_empty l s t p st :
  exists o st',
    make l None s t None None p st = (Ok o, st')
    /\ make l (Some []) s t (Some []) (Some []) p st' = (Ok o, st').
Proof.
  destruct (make_interns l None s t None None p st) as [o [Hm Hk]].
  exists o, (snd (make l None s t None None p st)).
  split; [assumption|]. now apply make_same_key.
Qed.

(** ** Equality *)

Lemma heap_id_injective st x y :
  wf_store st -> In x (heap st) -> In y (heap st) ->
  py_id x = py_id y -> x = y.
Proof.
  intros Hwf Hx Hy Hid.
  apply In_nth_error in Hx. destruct Hx as [i Hi].
  apply In_nth_error in Hy. destruct Hy as [j Hj].
  rewrite (wf_ids st Hwf _ _ Hi), (wf_ids st Hwf _ _ Hj) in Hid.
  subst j. congruence.
Qed.

Lemma well_formed_to_tag o :
  well_formed o ->
  _str_tag o = Some (to_tag o).
Proof. unfold well_formed, to_tag. intros ->. reflexivity. Qed.

(** C7. Two live [Language] objects compare equal exactly when their
    serializations [to_tag] are the same string. *)
Theorem eq_iff_same_tag st x y :
  wf_store st -> In x (heap st) -> In y (heap st) ->
  (__eq__ x y = true <-> to_tag x = to_tag y).
Proof.
  intros Hwf Hx Hy.
  assert (Htx := well_formed_to_tag x (wf_objects st Hwf x Hx)).
  assert (Hty := well_formed_to_tag y (wf_objects st Hwf y Hy)).
  unfold __eq__. destruct (Nat.eqb_spec (py_id x) (py_id y)) as [Hid|Hid].
  - rewrite (heap_id_injective st x y Hwf Hx Hy Hid). tauto.
  - rewrite opt_str_eqb_eq, Htx, Hty. split; congruence.
Qed.

(** ** Serialization and keys *)

Lemma append_seq_tuple subtags f x :
  append_seq subtags f x = append_seq subtags f (Some (tuple_or_empty x)).
Proof. destruct x as [[|a l]|]; reflexivity. Qed.

(** The serialization depends on the attributes through the key only. *)
Lemma render_tag_values l e s t v x p :
  render_tag l e s t v x p
  = tag_of_values
      (l, tuple_or_empty e, s, t, tuple_or_empty v, tuple_or_empty x, p).
Proof.
  unfold tag_of_values, render_tag.
  rewrite (append_seq_tuple _ _ e), (append_seq_tuple _ _ v),
    (append_seq_tuple _ _ x).
  reflexivity.
Qed.

Lemma to_tag_values o :
  well_formed o -> to_tag o = tag_of_values (values_of o).
Proof.
  intros H. unfold to_tag. rewrite H. apply render_tag_values.
Qed.

Lemma values_of_inv o l e s t v x p :
  values_of o = (l, e, s, t, v, x, p) ->
  language o = l /\ tuple_or_empty (extlangs o) = e /\ script o = s
  /\ territory o = t /\ tuple_or_empty (variants o) = v
  /\ tuple_or_empty (extensions o) = x /\ private o = p.
Proof. unfold values_of. intros H. inversion H. repeat split. Qed.

(** ** simplify_script *)

(** C5. [simplify_script] returns the instance interned for the
    attributes of [t] without the script exactly when the language of [t]
    is set and the script of [t] is the entry of [DEFAULT_SCRIPTS] for that
    language; in every other case it returns [t] itself and builds
    nothing. *)
Theorem simplify_script_spec env st t :
  wf_store st ->
  if script_is_default env t
  then
    exists r st',
      simplify_script env t st = (Ok r, st')
      /\ script r = None
      /\ values_of r
         = (language t, tuple_or_empty (extlangs t), None, territory t,
            tuple_or_empty (variants t), tuple_or_empty (extensions t),
            private t)
  else simplify_script env t st = (Ok t, st).
Proof.
  intros Hwf. unfold script_is_default, simplify_script.
  destruct (language t) as [l|] eqn:El; [|reflexivity].
  destruct (script t) as [s|] eqn:Es; simpl;
    [|now rewrite andb_false_r].
  destruct (l =? "") eqn:Hl; simpl; [reflexivity|].
  destruct (s =? "") eqn:Hs; simpl; [reflexivity|].
  destruct (opt_str_eqb (table_get (DEFAULT_SCRIPTS env) l) (Some s));
    [|reflexivity].
  unfold update_dict, newdata_script, nd_get. simpl.
  destruct (make_ensures (language t) (extlangs t) None (territory t)
              (variants t) (extensions t) (private t) st Hwf)
    as [r [st' [Hm [_ [_ [_ [Hv _]]]]]]].
  rewrite El in *. exists r, st'. split; [exact Hm|].
  split; [|exact Hv].
  unfold values_of in Hv. congruence.
Qed.

(** ** broaden *)

(** C2, at the tag [en]: [broaden] returns three elements, the first two
    both serialized as [en], because [seen] starts as the set of the
    characters of the tag and not as the set holding the tag. *)
Theorem broaden_en_repeats_en :
  fst ((en <- make (Some "en") None None None None None None ;;
        broader <- broaden en ;;
        ret (map to_tag broader)) empty_store)
  = Ok ["en"; "en"; "und"].
Proof. vm_compute. reflexivity. Qed.

(** The docstring example of [broaden], where the tag differs from each
    of its restrictions. *)
Example broaden_docstring :
  fst ((nn <- make (Some "nn") None (Some "Latn") (Some "NO") None None
                (Some "x-thingy") ;;
        broader <- broaden nn ;;
        ret (map to_tag broader)) empty_store)
  = Ok ["nn-Latn-NO-x-thingy"; "nn-Latn-NO"; "nn-NO"; "nn-Latn"; "nn";
        "und-Latn"; "und"].
Proof. vm_compute. reflexivity. Qed.

(** ** closest_match *)

(** C4. When the desired language is an element of the supported list,
    [closest_match] returns it with distance 0, for every [max_distance],
    in every environment (whatever the parser and the distance function
    are) and without touching the store. *)
Theorem closest_match_exact env desired supported max_distance st :
  tag_arg_in desired supported = true ->
  closest_match env desired supported max_distance st
  = (Ok (desired, 0%Z), st).
Proof.
  intros Hin. unfold closest_match. rewrite Hin. reflexivity.
Qed.

(** With no candidate the sentinel is returned. *)
Example closest_match_empty :
  fst (closest_match sample_env (TagStr "en") [] 25 empty_store)
  = Ok (TagStr "und", 1000%Z).
Proof. vm_compute. reflexivity. Qed.

(** ** maximize: the failure *)

Lemma maximize_loop_no_hit env t broader st :
  (forall b, In b broader ->
             table_get (LIKELY_SUBTAGS env) (to_tag b) = None) ->
  maximize_loop env t broader st
  = (Raise (RuntimeError likely_subtags_error), st).
Proof.
  induction broader as [|b broader IH]; intros Hnone; simpl.
  - reflexivity.
  - rewrite (Hnone b) by now left.
    apply IH. intros b' Hb'. apply Hnone. now right.
Qed.

(** C9. If no element of [t.broaden()] serializes to a key of
    [LIKELY_SUBTAGS], then [t.maximize()] raises the [RuntimeError] whose
    message names the LIKELY_SUBTAGS data, and returns no value. *)
Theorem maximize_raises_without_likely env t st broader st1 :
  broaden t st = (Ok broader, st1) ->
  (forall b, In b broader ->
             table_get (LIKELY_SUBTAGS env) (to_tag b) = None) ->
  maximize env t st = (Raise (RuntimeError likely_subtags_error), st1).
Proof.
  intros Hb Hnone. unfold maximize. rewrite (bind_ok _ _ _ _ _ Hb).
  now apply maximize_loop_no_hit.
Qed.

(** ** Language.get without normalization *)

(** With [normalize=False] the loop of [get] makes no nested call and
    leaves the store alone. *)
Lemma get_components_no_normalize env recur components :
  forall data st,
    exists data',
      get_components env recur false components data st = (Ok data', st).
Proof.
  induction components as [|[typ value] components IH]; intros data st.
  - now exists data.
  - cbn [get_components].
    destruct typ; try (unfold bind at 1, ret at 1; apply IH).
    destruct (value =? "und"); unfold bind at 1, ret at 1; apply IH.
Qed.

Lemma get_no_normalize_parsed env tag components st :
  parse_tag env tag = Ok components ->
  exists data, get env (TagStr tag) false st = make_kwargs data st.
Proof.
  intros Hp. unfold get. cbn [get_depth]. rewrite Hp.
  destruct (get_components_no_normalize env
              (fun t => get_depth env (recursion_limit env) (TagStr t) false)
              components empty_dict st) as [data Hd].
  exists data. now rewrite (bind_ok _ _ _ _ _ Hd).
Qed.

Lemma get_no_normalize_raise env tag e st :
  parse_tag env tag = Raise e ->
  get env (TagStr tag) false st = (Raise e, st).
Proof.
  intros Hp. unfold get. cbn [get_depth]. now rewrite Hp.
Qed.

(** A maximized tag string is read as its three subtags. *)
Lemma get_maximized env tag components st :
  parse_tag env tag = Ok components ->
  is_maximized components = true ->
  exists l s t,
    l <> "" /\ s <> "" /\ t <> ""
    /\ get env (TagStr tag) false st
       = make (Some l) None (Some s) (Some t) None None None st.
Proof.
  intros Hp Hmax. unfold is_maximized in Hmax.
  destruct components as [|[ty1 l] components]; [discriminate|].
  destruct ty1; try discriminate.
  destruct components as [|[ty2 s] components]; [discriminate|].
  destruct ty2; try discriminate.
  destruct components as [|[ty3 t] components]; [discriminate|].
  destruct ty3; try discriminate.
  destruct components; [|discriminate].
  rewrite !andb_true_iff, !negb_true_iff, !String.eqb_neq in Hmax.
  destruct Hmax as [[[Hl Hund] Hs] Ht].
  exists l, s, t. repeat (split; [assumption|]).
  unfold get. cbn [get_depth]. rewrite Hp. cbn [get_components].
  apply String.eqb_neq in Hund. rewrite Hund. reflexivity.
Qed.

(** C10. When the parser classifies the whole input as a grandfathered
    tag [v], and normalization is disabled or [LANGUAGE_REPLACEMENTS] has
    no entry for the input, [Language.get] returns the instance interned
    for the language [v] alone: its language is [v]; script, territory and
    private are [None]; extlangs, variants and extensions are empty, and
    are [None] as long as no caller interned an empty list. *)
Theorem get_grandfathered env tag normalize v st :
  wf_store st ->
  parse_tag env tag = Ok [(st_grandfathered, v)] ->
  normalize = false
  \/ table_get (LANGUAGE_REPLACEMENTS env) (lower tag) = None ->
  exists r st',
    get env (TagStr tag) normalize st = (Ok r, st')
    /\ language r = Some v
    /\ script r = None /\ territory r = None /\ private r = None
    /\ tuple_or_empty (extlangs r) = []
    /\ tuple_or_empty (variants r) = []
    /\ tuple_or_empty (extensions r) = []
    /\ (no_empty_sequences st ->
        extlangs r = None /\ variants r = None /\ extensions r = None).
Proof.
  intros Hwf Hp Hnorm.
  assert (Hget : get env (TagStr tag) normalize st
                 = make (Some v) None None None None None None st).
  { unfold get. cbn [get_depth].
    destruct normalize.
    - destruct Hnorm as [Hn|Hn]; [discriminate|].
      rewrite Hn, Hp. reflexivity.
    - rewrite Hp. reflexivity. }
  rewrite Hget.
  destruct (make_cases (Some v) None None None None None None st)
    as [[o [Hk Hm]]|[Hk Hm]]; cbv zeta in Hm; rewrite Hm.
  - destruct (wf_instances st Hwf _ _ Hk) as [Hv _].
    apply values_of_inv in Hv.
    destruct Hv as [Hl [He [Hs [Ht [Hva [Hx Hpr]]]]]].
    cbn [tuple_or_empty] in He, Hva, Hx.
    exists o, st. rewrite Hl, He, Hs, Ht, Hva, Hx, Hpr.
    repeat (split; [reflexivity|]).
    intros Hne. destruct (Hne _ _ Hk) as [H1 [H2 H3]].
    destruct (extlangs o) as [[|]|], (variants o) as [[|]|],
      (extensions o) as [[|]|]; try discriminate; try tauto.
  - eexists _, _. split; [reflexivity|]. cbn. repeat split.
Qed.

(** ** Composing specifications *)

Lemma ensures_ret {A} (a : A) st (Q : A -> store -> Prop) :
  wf_store st -> Q a st -> ensures (ret a) st Q.
Proof.
  intros Hwf HQ. exists a, st.
  split; [reflexivity|]. split; [assumption|].
  split; [apply evolves_refl | assumption].
Qed.

Lemma ensures_bind {A B} (c : M A) (k : A -> M B) st
    (Q1 : A -> store -> Prop) (Q2 : B -> store -> Prop) :
  ensures c st Q1 ->
  (forall a st1, wf_store st1 -> evolves st st1 -> Q1 a st1 ->
                 ensures (k a) st1 Q2) ->
  ensures (bind c k) st Q2.
Proof.
  intros [a [st1 [Hc [Hwf1 [Hev1 HQ1]]]]] Hk.
  destruct (Hk a st1 Hwf1 Hev1 HQ1) as [b [st2 [Hkb [Hwf2 [Hev2 HQ2]]]]].
  exists b, st2. rewrite (bind_ok _ _ _ _ _ Hc).
  split; [assumption|]. split; [assumption|].
  split; [eapply evolves_trans; eassumption | assumption].
Qed.

Lemma ensures_weaken {A} (c : M A) st (Q Q' : A -> store -> Prop) :
  ensures c st Q -> (forall a st', evolves st st' -> Q a st' -> Q' a st') ->
  ensures c st Q'.
Proof.
  intros [a [st' [Hc [Hwf [Hev HQ]]]]] Himp.
  exists a, st'. repeat (split; [assumption|]). now apply Himp.
Qed.

(** Each method that builds its result with [make]. *)
Lemma update_ensures self other st :
  wf_store st ->
  ensures (update self other) st
    (fun r st' =>
       In r (heap st')
       /\ values_of r
          = (or_str (language other) (language self),
             tuple_or_empty (or_seq (extlangs other) (extlangs self)),
             or_str (script other) (script self),
             or_str (territory other) (territory self),
             tuple_or_empty (or_seq (variants other) (variants self)),
             tuple_or_empty (or_seq (extensions other) (extensions self)),
             or_str (private other) (private self))).
Proof.
  intros Hwf. unfold update.
  eapply ensures_weaken; [now apply make_ensures|].
  cbv beta zeta. intros r st' _ [Hin [Hv _]]. now split.
Qed.

Lemma update_dict_ensures self newdata st :
  wf_store st ->
  ensures (update_dict self newdata) st (fun r st' => In r (heap st')).
Proof.
  intros Hwf. unfold update_dict.
  eapply ensures_weaken; [now apply make_ensures|].
  cbv beta zeta. now intros r st' _ [Hin _].
Qed.

Lemma filter_attributes_ensures self keyset st :
  wf_store st ->
  ensures (_filter_attributes self keyset) st
    (fun r st' =>
       let d := _filter_keys (to_dict self) keyset in
       In r (heap st')
       /\ values_of r
          = (d_language d, tuple_or_empty (d_extlangs d), d_script d,
             d_territory d, tuple_or_empty (d_variants d),
             tuple_or_empty (d_extensions d), d_private d)).
Proof.
  intros Hwf. unfold _filter_attributes, make_kwargs.
  eapply ensures_weaken; [now apply make_ensures|].
  cbv beta zeta. intros r st' _ [Hin [Hv _]]. now split.
Qed.

Lemma prefer_macrolanguage_ensures env self st :
  wf_store st ->
  ensures (prefer_macrolanguage env self) st (fun _ _ => True).
Proof.
  intros Hwf. unfold prefer_macrolanguage.
  destruct (table_get _ _).
  - eapply ensures_weaken; [now apply update_dict_ensures|]. auto.
  - now apply ensures_ret.
Qed.

(** ** broaden: what does hold *)

Lemma str_in_cons x y l :
  str_in x (y :: l) = true -> x = y \/ str_in x l = true.
Proof.
  unfold str_in. simpl. intros H. apply orb_true_iff in H.
  destruct H as [H|H]; [left; now apply String.eqb_eq | now right].
Qed.

Lemma str_in_chars x s : str_in x (chars s) = true -> String.length x = 1.
Proof.
  unfold str_in, chars. intros H. apply existsb_exists in H.
  destruct H as [y [Hy Hxy]]. apply String.eqb_eq in Hxy. subst y.
  apply in_map_iff in Hy. destruct Hy as [c [<- _]]. reflexivity.
Qed.

(** The loop keeps what it has, returns live objects only, and, once it
    meets the empty keyset, holds an element serialized as [und]. *)
Lemma broaden_loop_ensures self keysets :
  forall broader seen st,
    wf_store st ->
    (forall tag, str_in tag seen = true ->
                 String.length tag = 1
                 \/ exists b, In b broader /\ to_tag b = tag) ->
    ensures (broaden_loop self keysets broader seen) st
      (fun bs st' =>
         (forall b, In b broader -> In b bs)
         /\ (forall b, In b bs -> In b broader \/ In b (heap st'))
         /\ (In [] keysets -> exists b, In b bs /\ to_tag b = "und")).
Proof.
  induction keysets as [|keyset keysets IH]; intros broader seen st Hwf Hseen.
  - cbn [broaden_loop]. apply ensures_ret; [assumption|].
    split; [auto|]. split; [auto|]. intros [].
  - cbn [broaden_loop].
    eapply ensures_bind; [now apply filter_attributes_ensures|].
    cbv beta zeta. intros filtered st1 Hwf1 Hev1 [Hin Hv].
    assert (Hund : keyset = [] -> to_tag filtered = "und").
    { intros ->. rewrite to_tag_values by now apply (wf_objects st1 Hwf1).
      rewrite Hv. reflexivity. }
    destruct (str_in (to_tag filtered) seen) eqn:Eseen; cbn [negb].
    + eapply ensures_weaken; [apply (IH broader seen st1 Hwf1 Hseen)|].
      cbv beta. intros bs st' _ [Hkeep [Hlive Hlast]].
      split; [assumption|]. split; [assumption|].
      intros [->|Hin']; [|now apply Hlast].
      destruct (Hseen _ Eseen) as [Hlen|[b [Hb Htag]]].
      * rewrite (Hund eq_refl) in Hlen. discriminate.
      * exists b. split; [now apply Hkeep|]. rewrite Htag. now apply Hund.
    + eapply ensures_weaken;
        [apply (IH (broader ++ [filtered]) (to_tag filtered :: seen) st1
                  Hwf1)|].
      * intros tag Htag. apply str_in_cons in Htag.
        destruct Htag as [->|Htag].
        -- right. exists filtered. split; [|reflexivity].
           apply in_or_app. right. now left.
        -- destruct (Hseen tag Htag) as [Hlen|[b [Hb Hb']]]; [now left|].
           right. exists b. split; [apply in_or_app; now left|assumption].
      * cbv beta. intros bs st' Hev' [Hkeep [Hlive Hlast]].
        split; [intros b Hb; apply Hkeep, in_or_app; now left|].
        split.
        -- intros b Hb. destruct (Hlive b Hb) as [Hb'|Hb']; [|now right].
           apply in_app_or in Hb'. destruct Hb' as [Hb'|[<-|[]]];
             [now left|]. right. eapply evolves_heap; eassumption.
        -- intros [->|Hin']; [|now apply Hlast].
           exists filtered. split; [|now apply Hund].
           apply Hkeep, in_or_app. right. now left.
Qed.

(** [broaden] returns a list that starts with [self] and holds an element
    serialized as [und]. *)
Lemma broaden_ensures self st :
  wf_store st ->
  ensures (broaden self) st
    (fun bs st' => In self bs /\ exists b, In b bs /\ to_tag b = "und").
Proof.
  intros Hwf. unfold broaden.
  eapply ensures_weaken.
  - apply (broaden_loop_ensures self BROADER_KEYSETS [self]
             (chars (to_tag self)) st Hwf).
    intros tag Htag. left. eapply str_in_chars; eassumption.
  - cbv beta. intros bs st' Hev [Hkeep [Hlive Hlast]].
    split; [apply Hkeep; now left|].
    apply Hlast. unfold BROADER_KEYSETS. simpl. tauto.
Qed.

(** ** maximize *)

Lemma table_get_forallb (f : string -> bool) (d : table) key v :
  forallb (fun kv => f (snd kv)) d = true ->
  table_get d key = Some v -> f v = true.
Proof.
  induction d as [|[k v'] d IH]; simpl; intros Hall Hget; [discriminate|].
  apply andb_true_iff in Hall. destruct Hall as [Hv Hd].
  destruct (key =? k).
  - inversion Hget; subst. assumption.
  - now apply IH.
Qed.

Lemma likely_maximized_parse env :
  likely_values_maximized env = true -> likely_values_parse env = true.
Proof.
  unfold likely_values_maximized, likely_values_parse.
  intros H. rewrite forallb_forall in *. intros kv Hkv.
  specialize (H kv Hkv). now destruct (parse_tag env (snd kv)).
Qed.

(** The loop returns what the first hit gives. *)
Lemma maximize_loop_hit env self broader st :
  (exists b, In b broader
             /\ table_get (LIKELY_SUBTAGS env) (to_tag b) <> None) ->
  exists key likely,
    table_get (LIKELY_SUBTAGS env) key = Some likely
    /\ maximize_loop env self broader st
       = (result <- get env (TagStr likely) false ;; update result self) st.
Proof.
  induction broader as [|b broader IH]; intros [b' [Hin Hhit]].
  - destruct Hin.
  - cbn [maximize_loop].
    destruct (table_get (LIKELY_SUBTAGS env) (to_tag b)) as [likely|] eqn:E.
    + now exists (to_tag b), likely.
    + apply IH. exists b'. destruct Hin as [<-|Hin]; [congruence|].
      now split.
Qed.

Lemma maximize_loop_inv env self broader st r st' :
  maximize_loop env self broader st = (Ok r, st') ->
  exists key likely,
    table_get (LIKELY_SUBTAGS env) key = Some likely
    /\ (result <- get env (TagStr likely) false ;; update result self) st
       = (Ok r, st').
Proof.
  induction broader as [|b broader IH]; cbn [maximize_loop].
  - discriminate.
  - destruct (table_get (LIKELY_SUBTAGS env) (to_tag b)) as [likely|] eqn:E.
    + intros H. now exists (to_tag b), likely.
    + apply IH.
Qed.

(** Reading a table value leaves the store well formed. *)
Lemma get_no_normalize_wf env tag st r st' :
  wf_store st ->
  get env (TagStr tag) false st = (r, st') ->
  wf_store st' /\ evolves st st'.
Proof.
  intros Hwf Hget.
  destruct (parse_tag env tag) as [components|e] eqn:Hp.
  - destruct (get_no_normalize_parsed env tag components st Hp) as [d Hd].
    rewrite Hd in Hget. unfold make_kwargs in Hget.
    assert (Hst : st' = snd (make (d_language d) (d_extlangs d) (d_script d)
                               (d_territory d) (d_variants d)
                               (d_extensions d) (d_private d) st))
      by now rewrite Hget.
    subst st'. split; [now apply make_wf|].
    apply evolves_make, evolves_refl.
  - rewrite (get_no_normalize_raise env tag e st Hp) in Hget.
    inversion Hget; subst. split; [assumption | apply evolves_refl].
Qed.

(** What a successful [maximize] returns: the instance interned for the
    merge of [t] over some value [v] of [LIKELY_SUBTAGS], read without
    normalization. *)
Lemma maximize_inv env t st r st' :
  wf_store st ->
  maximize env t st = (Ok r, st') ->
  wf_store st' /\ evolves st st' /\ In r (heap st')
  /\ exists key likely st0 v st1,
       table_get (LIKELY_SUBTAGS env) key = Some likely
       /\ wf_store st0
       /\ get env (TagStr likely) false st0 = (Ok v, st1)
       /\ values_of r
          = (or_str (language t) (language v),
             tuple_or_empty (or_seq (extlangs t) (extlangs v)),
             or_str (script t) (script v),
             or_str (territory t) (territory v),
             tuple_or_empty (or_seq (variants t) (variants v)),
             tuple_or_empty (or_seq (extensions t) (extensions v)),
             or_str (private t) (private v)).
Proof.
  intros Hwf Hmax. unfold maximize in Hmax.
  destruct (broaden_ensures t st Hwf) as [bs [st0 [Hb [Hwf0 [Hev0 _]]]]].
  rewrite (bind_ok _ _ _ _ _ Hb) in Hmax.
  apply maximize_loop_inv in Hmax.
  destruct Hmax as [key [likely [Hkey Hrun]]].
  apply bind_inv in Hrun.
  destruct Hrun as [[v [st1 [Hget Hupd]]]|[e [_ He]]]; [|discriminate].
  destruct (get_no_normalize_wf env likely st0 _ _ Hwf0 Hget) as [Hwf1 Hev1].
  destruct (update_ensures v t st1 Hwf1)
    as [r' [st2 [Hupd' [Hwf2 [Hev2 [Hin Hv]]]]]].
  rewrite Hupd in Hupd'. inversion Hupd'; subst r' st2.
  split; [assumption|]. split.
  { eapply evolves_trans; [eassumption|].
    eapply evolves_trans; eassumption. }
  split; [assumption|].
  now exists key, likely, st0, v, st1.
Qed.

(** With an entry for [und] and parsable values, [maximize] returns. *)
Lemma maximize_total env t st :
  wf_store st ->
  likely_has_und env = true ->
  likely_values_parse env = true ->
  exists r st', maximize env t st = (Ok r, st').
Proof.
  intros Hwf Hund Hparse. unfold maximize.
  destruct (broaden_ensures t st Hwf)
    as [bs [st0 [Hb [Hwf0 [Hev0 [_ [b [Hin Htag]]]]]]]].
  rewrite (bind_ok _ _ _ _ _ Hb).
  destruct (maximize_loop_hit env t bs st0) as [key [likely [Hkey ->]]].
  { exists b. split; [assumption|]. rewrite Htag.
    unfold likely_has_und, is_some, is_none in Hund.
    destruct (table_get (LIKELY_SUBTAGS env) "und"); [congruence|discriminate]. }
  assert (Hp := table_get_forallb
                  (fun v => match parse_tag env v with
                            | Ok _ => true
                            | Raise _ => false
                            end) _ _ _ Hparse Hkey).
  cbv beta in Hp.
  destruct (parse_tag env likely) as [components|] eqn:Ep; [|discriminate].
  destruct (get_no_normalize_parsed env likely components st0 Ep) as [d Hd].
  unfold make_kwargs in Hd.
  destruct (make_ensures (d_language d) (d_extlangs d) (d_script d)
              (d_territory d) (d_variants d) (d_extensions d) (d_private d)
              st0 Hwf0) as [v [st1 [Hm [Hwf1 _]]]].
  rewrite Hm in Hd.
  destruct (update_ensures v t st1 Hwf1) as [r [st2 [Hupd _]]].
  exists r, st2. now rewrite (bind_ok _ _ _ _ _ Hd).
Qed.

Lemma tuple_or_empty_cons x a l :
  tuple_or_empty x = a :: l -> x = Some (a :: l).
Proof. destruct x as [l'|]; simpl; intros H; [now subst | discriminate]. Qed.

Lemma or_str_truthy a b : truthy_str a = true -> or_str a b = a.
Proof. unfold or_str. now intros ->. Qed.

Lemma or_seq_truthy a b : truthy_seq a = true -> or_seq a b = a.
Proof. unfold or_seq. now intros ->. Qed.

Lemma truthy_seq_tuple x r :
  truthy_seq x = true -> tuple_or_empty r = tuple_or_empty x -> r = x.
Proof.
  destruct x as [[|a l]|]; try discriminate. simpl. intros _.
  apply tuple_or_empty_cons.
Qed.

(** C1. [maximize] never drops a field of the tag it is called on: when
    [t.maximize()] returns [r], every non-empty attribute of [t] (language,
    extlangs, script, territory, variants, extensions, private) is the
    attribute of [r], the value looked up in [LIKELY_SUBTAGS] being merged
    under the fields of [t]. *)
Theorem maximize_keeps_fields env t st r st' :
  wf_store st ->
  maximize env t st = (Ok r, st') ->
  (truthy_str (language t) = true -> language r = language t)
  /\ (truthy_seq (extlangs t) = true -> extlangs r = extlangs t)
  /\ (truthy_str (script t) = true -> script r = script t)
  /\ (truthy_str (territory t) = true -> territory r = territory t)
  /\ (truthy_seq (variants t) = true -> variants r = variants t)
  /\ (truthy_seq (extensions t) = true -> extensions r = extensions t)
  /\ (truthy_str (private t) = true -> private r = private t).
Proof.
  intros Hwf Hmax.
  destruct (maximize_inv env t st r st' Hwf Hmax)
    as [_ [_ [_ [key [likely [st0 [v [st1 [_ [_ [_ Hv]]]]]]]]]]].
  apply values_of_inv in Hv.
  destruct Hv as [Hl [He [Hs [Ht [Hva [Hx Hp]]]]]].
  repeat split; intros Htruthy.
  - now rewrite Hl, or_str_truthy.
  - rewrite or_seq_truthy in He by assumption. now apply truthy_seq_tuple.
  - now rewrite Hs, or_str_truthy.
  - now rewrite Ht, or_str_truthy.
  - rewrite or_seq_truthy in Hva by assumption. now apply truthy_seq_tuple.
  - rewrite or_seq_truthy in Hx by assumption. now apply truthy_seq_tuple.
  - now rewrite Hp, or_str_truthy.
Qed.

(** A value of a table of maximized tag strings is read as an instance
    with a language, a script and a territory, and nothing else. *)
Lemma maximized_value env key likely st0 v st1 :
  wf_store st0 ->
  likely_values_maximized env = true ->
  table_get (LIKELY_SUBTAGS env) key = Some likely ->
  get env (TagStr likely) false st0 = (Ok v, st1) ->
  exists l s t,
    l <> "" /\ s <> "" /\ t <> ""
    /\ values_of v = (Some l, [], Some s, Some t, [], [], None).
Proof.
  intros Hwf Hmax Hkey Hget.
  assert (Hp := table_get_forallb
                  (fun v => match parse_tag env v with
                            | Ok components => is_maximized components
                            | Raise _ => false
                            end) _ _ _ Hmax Hkey).
  cbv beta in Hp.
  destruct (parse_tag env likely) as [components|] eqn:Ep; [|discriminate].
  destruct (get_maximized env likely components st0 Ep Hp)
    as [l [s [t [Hl [Hs [Ht Hmake]]]]]].
  exists l, s, t. repeat (split; [assumption|]).
  destruct (make_ensures (Some l) None (Some s) (Some t) None None None
              st0 Hwf) as [v' [st1' [Hm [_ [_ [_ [Hv _]]]]]]].
  rewrite Hmake, Hm in Hget. inversion Hget; subst. exact Hv.
Qed.

Lemma truthy_or_str_l a l : l <> "" -> truthy_str (or_str a (Some l)) = true.
Proof.
  intros Hl. unfold or_str. destruct (truthy_str a) eqn:Ea; [assumption|].
  simpl. apply negb_true_iff. now apply String.eqb_neq.
Qed.

Lemma append_str_or_none subtags p :
  append_str subtags (or_str p None) = append_str subtags p.
Proof.
  destruct p as [p|]; [|reflexivity].
  unfold or_str, append_str, truthy_str.
  destruct (p =? "") eqn:E; simpl; rewrite ?E; reflexivity.
Qed.

(** Merging [m] over a value that sets language, script and territory
    only, when [m] has these three, serializes as [m]. *)
Lemma merged_tag m v l s t :
  truthy_str (language m) = true ->
  truthy_str (script m) = true ->
  truthy_str (territory m) = true ->
  values_of v = (Some l, [], Some s, Some t, [], [], None) ->
  tag_of_values
    (or_str (language m) (language v),
     tuple_or_empty (or_seq (extlangs m) (extlangs v)),
     or_str (script m) (script v),
     or_str (territory m) (territory v),
     tuple_or_empty (or_seq (variants m) (variants v)),
     tuple_or_empty (or_seq (extensions m) (extensions v)),
     or_str (private m) (private v))
  = tag_of_values (values_of m).
Proof.
  intros Hl Hs Ht Hv. apply values_of_inv in Hv.
  destruct Hv as [_ [He [_ [_ [Hva [Hx Hp]]]]]].
  rewrite !or_str_truthy by assumption. rewrite Hp.
  assert (Hseq : forall a b, tuple_or_empty b = [] ->
                 tuple_or_empty (or_seq a b) = tuple_or_empty a).
  { intros [[|a0 a]|] b Hb; simpl; auto. }
  rewrite !Hseq by assumption.
  unfold values_of, tag_of_values, render_tag.
  now rewrite append_str_or_none.
Qed.

(** On reference data in which [und] has an entry and every value holds
    a language, a script and a territory, [maximize] is idempotent on
    every tag: when [t.maximize()] returns [m], then [m.maximize()]
    returns an instance equal to [m]. *)
Corollary maximize_twice_complete_values env t st m st' :
  wf_store st ->
  likely_has_und env = true ->
  likely_values_maximized env = true ->
  maximize env t st = (Ok m, st') ->
  exists m' st'',
    maximize env m st' = (Ok m', st'') /\ __eq__ m' m = true.
Proof.
  intros Hwf Hund Hmaxd Hmax.
  destruct (maximize_inv env t st m st' Hwf Hmax)
    as [Hwf' [_ [Hin [key [likely [st0 [v [st1 [Hkey [Hwf0 [Hget Hv]]]]]]]]]]].
  destruct (maximized_value env key likely st0 v st1 Hwf0 Hmaxd Hkey Hget)
    as [l [s [t0 [Hl [Hs [Ht Hvv]]]]]].
  apply values_of_inv in Hvv.
  destruct Hvv as [Hvl [_ [Hvs [Hvt _]]]].
  apply values_of_inv in Hv.
  destruct Hv as [Hml [_ [Hms [Hmt _]]]].
  rewrite Hvl in Hml. rewrite Hvs in Hms. rewrite Hvt in Hmt.
  assert (Tl : truthy_str (language m) = true)
    by (rewrite Hml; now apply truthy_or_str_l).
  assert (Ts : truthy_str (script m) = true)
    by (rewrite Hms; now apply truthy_or_str_l).
  assert (Tt : truthy_str (territory m) = true)
    by (rewrite Hmt; now apply truthy_or_str_l).
  destruct (maximize_total env m st' Hwf' Hund
              (likely_maximized_parse env Hmaxd)) as [m' [st'' Hmax']].
  exists m', st''. split; [assumption|].
  destruct (maximize_inv env m st' m' st'' Hwf' Hmax')
    as [Hwf'' [Hev [Hin' [key' [likely' [st2 [v' [st3
         [Hkey' [Hwf2 [Hget' Hv']]]]]]]]]]].
  destruct (maximized_value env key' likely' st2 v' st3 Hwf2 Hmaxd Hkey' Hget')
    as [l' [s' [t' [_ [_ [_ Hvv']]]]]].
  assert (Hm'wf := wf_objects st'' Hwf'' m' Hin').
  assert (Hmwf := wf_objects st' Hwf' m Hin).
  assert (Htag : to_tag m' = to_tag m).
  { rewrite (to_tag_values m' Hm'wf), (to_tag_values m Hmwf), Hv'.
    eapply merged_tag; eassumption. }
  unfold __eq__. destruct (py_id m' =? py_id m)%nat; [reflexivity|].
  apply opt_str_eqb_eq.
  rewrite (well_formed_to_tag m' Hm'wf), (well_formed_to_tag m Hmwf).
  now rewrite Htag.
Qed.

(** ** distance *)

Lemma clamp_distance_range d : (0 <= clamp_distance d <= 134)%Z.
Proof. unfold clamp_distance. lia. Qed.

Lemma distance_triple_total env l st :
  wf_store st ->
  likely_has_und env = true ->
  likely_values_parse env = true ->
  exists tr st', distance_triple env l st = (Ok tr, st') /\ wf_store st'.
Proof.
  intros Hwf Hund Hparse. unfold distance_triple.
  destruct (is_none (language l) && is_none (script l)
            && is_none (territory l)).
  - eexists _, st. now split.
  - destruct (prefer_macrolanguage_ensures env l st Hwf)
      as [macro [st1 [Hmacro [Hwf1 _]]]].
    rewrite (bind_ok _ _ _ _ _ Hmacro).
    destruct (maximize_total env macro st1 Hwf1 Hund Hparse)
      as [complete [st2 Hmax]].
    rewrite (bind_ok _ _ _ _ _ Hmax).
    eexists _, st2. split; [reflexivity|].
    now destruct (maximize_inv env macro st1 complete st2 Hwf1 Hmax).
Qed.

(** C3. With [tuple_distance_cached] as the specification describes it,
    and reference data in which [und] has a likely-subtags entry and every
    likely-subtags value parses, [distance] returns an integer from 0 to
    134 for every pair of [Language] values. *)
Theorem distance_in_range env R desired supported st :
  wf_store st ->
  (forall d s, tuple_distance_cached env d s = tuple_distance_spec R d s) ->
  likely_has_und env = true ->
  likely_values_parse env = true ->
  exists n st',
    distance env desired supported st = (Ok n, st')
    /\ (0 <= n <= 134)%Z.
Proof.
  intros Hwf Hdist Hund Hparse. unfold distance.
  destruct (__eq__ supported desired).
  - exists 0%Z, st. split; [reflexivity | lia].
  - destruct (distance_triple_total env desired st Hwf Hund Hparse)
      as [dt [st1 [Hd Hwf1]]].
    destruct (distance_triple_total env supported st1 Hwf1 Hund Hparse)
      as [stt [st2 [Hs _]]].
    rewrite (bind_ok _ _ _ _ _ Hd), (bind_ok _ _ _ _ _ Hs).
    eexists _, st2. split; [reflexivity|].
    rewrite Hdist. unfold tuple_distance_spec. apply clamp_distance_range.
Qed.

(** ** Methods that change the store through [make] only *)

Lemma evolving_ret {A} (a : A) : evolving (ret a).
Proof. intros st r st' H. inversion H. apply evolves_refl. Qed.

Lemma evolving_raise {A} (e : exception) : evolving (@raise A e).
Proof. intros st r st' H. inversion H. apply evolves_refl. Qed.

Lemma evolving_bind {A B} (c : M A) (k : A -> M B) :
  evolving c -> (forall a, evolving (k a)) -> evolving (bind c k).
Proof.
  intros Hc Hk st r st' H. apply bind_inv in H.
  destruct H as [[a [st1 [H1 H2]]]|[e [H1 _]]].
  - eapply evolves_trans; [eapply Hc | eapply Hk]; eassumption.
  - eapply Hc; eassumption.
Qed.

Lemma evolving_make l e s t v x p : evolving (make l e s t v x p).
Proof.
  intros st r st' H.
  replace st' with (snd (make l e s t v x p st)) by now rewrite H.
  apply evolves_make, evolves_refl.
Qed.

Create HintDb evolving.
#[local] Hint Resolve evolving_ret evolving_raise evolving_make : evolving.

(** Known computations first, then the structure of the term. *)
Ltac evolving :=
  repeat first
    [ assumption
    | solve [auto with evolving nocore]
    | simple apply evolving_bind; [|intros ?]
    | match goal with
      | |- evolving (match ?x with _ => _ end) => destruct x
      | |- evolving (if ?x then _ else _) => destruct x
      end ].

Lemma evolving_update self other : evolving (update self other).
Proof. unfold update. evolving. Qed.

Lemma evolving_update_dict self newdata : evolving (update_dict self newdata).
Proof. unfold update_dict. evolving. Qed.

Lemma evolving_filter_attributes self keyset :
  evolving (_filter_attributes self keyset).
Proof. unfold _filter_attributes, make_kwargs. evolving. Qed.

#[local] Hint Resolve evolving_update evolving_update_dict
  evolving_filter_attributes : evolving.

Lemma evolving_broaden self : evolving (broaden self).
Proof.
  unfold broaden. generalize [self] (chars (to_tag self)).
  induction BROADER_KEYSETS as [|keyset keysets IH]; intros broader seen;
    cbn [broaden_loop].
  - evolving.
  - apply evolving_bind; [apply evolving_filter_attributes|].
    intros filtered. destruct (negb _); apply IH.
Qed.

Lemma evolving_simplify_script env self : evolving (simplify_script env self).
Proof. unfold simplify_script. evolving. Qed.

Lemma evolving_prefer_macrolanguage env self :
  evolving (prefer_macrolanguage env self).
Proof. unfold prefer_macrolanguage. evolving. Qed.

#[local] Hint Resolve evolving_broaden evolving_simplify_script
  evolving_prefer_macrolanguage : evolving.

(** [Language.get] with [normalize=False] makes no nested call: it
    parses, fills a fresh dict and asks [make] for the instance. *)
Lemma evolving_get env tag : evolving (get env tag false).
Proof.
  intros st r st' H. destruct tag as [s|l].
  - destruct (parse_tag env s) as [components|e] eqn:Hp.
    + destruct (get_no_normalize_parsed env s components st Hp) as [d Hd].
      rewrite Hd in H. unfold make_kwargs in H.
      assert (Hst : st' = snd (make (d_language d) (d_extlangs d)
                                 (d_script d) (d_territory d)
                                 (d_variants d) (d_extensions d)
                                 (d_private d) st))
        by now rewrite H.
      subst st'. apply evolves_make, evolves_refl.
    + rewrite (get_no_normalize_raise env s e st Hp) in H.
      inversion H. apply evolves_refl.
  - unfold get in H. cbn [get_depth] in H. inversion H.
    apply evolves_refl.
Qed.

#[local] Hint Resolve evolving_get : evolving.

Lemma evolving_maximize env self : evolving (maximize env self).
Proof.
  unfold maximize. apply evolving_bind; [apply evolving_broaden|].
  intros broader. induction broader as [|b broader IH]; cbn [maximize_loop].
  - evolving.
  - evolving.
Qed.

#[local] Hint Resolve evolving_maximize : evolving.

Lemma evolving_distance env self supported :
  evolving (distance env self supported).
Proof.
  assert (Htriple : forall l, evolving (distance_triple env l))
    by (intros l; unfold distance_triple; evolving).
  unfold distance. evolving; apply Htriple.
Qed.

(** ** The properties at concrete inputs *)

Lemma sample_store_wf : wf_store sample_store.
Proof. unfold sample_store. repeat apply make_wf. apply empty_store_wf. Qed.

(** [und-IN] is maximized to [hi-Deva-IN]: the territory is kept, the
    language and the script are filled in. *)
Lemma maximize_keeps_fields_witness :
  maximize sample_env und_IN sample_store
  = (Ok hi_Deva_IN, snd (maximize sample_env und_IN sample_store))
  /\ territory hi_Deva_IN = territory und_IN
  /\ language hi_Deva_IN = Some "hi"
  /\ script hi_Deva_IN = Some "Deva".
Proof.
  assert (H : maximize sample_env und_IN sample_store
              = (Ok hi_Deva_IN, snd (maximize sample_env und_IN sample_store)))
    by (vm_compute; reflexivity).
  split; [exact H|]. split; [|split; reflexivity].
  apply (maximize_keeps_fields sample_env und_IN sample_store hi_Deva_IN
           _ sample_store_wf H).
  reflexivity.
Defined.

Lemma distance_in_range_witness :
  exists n st',
    distance sample_env und_IN zh_TW sample_store = (Ok n, st')
    /\ (0 <= n <= 134)%Z.
Proof.
  apply (distance_in_range sample_env sample_rules und_IN zh_TW sample_store
           sample_store_wf).
  - intros d s. reflexivity.
  - reflexivity.
  - reflexivity.
Defined.

Example distance_und_IN_zh_TW :
  fst (distance sample_env und_IN zh_TW sample_store) = Ok 134%Z.
Proof. vm_compute. reflexivity. Qed.

(** The desired tag is not one the sample parser accepts; it is returned
    all the same, unparsed. *)
Lemma closest_match_exact_witness :
  closest_match sample_env (TagStr "en_US") [TagStr "fr"; TagStr "en_US"] 25
    empty_store
  = (Ok (TagStr "en_US", 0%Z), empty_store).
Proof.
  apply (closest_match_exact sample_env (TagStr "en_US")
           [TagStr "fr"; TagStr "en_US"] 25%Z empty_store).
  reflexivity.
Defined.

(** [en-Latn] loses its script, Latin being the default script of [en];
    [zh-TW], which has no script, is returned as it is. *)
Lemma simplify_script_spec_witness :
  (exists r st',
      simplify_script sample_env en_Latn sample_store = (Ok r, st')
      /\ script r = None
      /\ values_of r = (Some "en", [], None, None, [], [], None))
  /\ simplify_script sample_env zh_TW sample_store = (Ok zh_TW, sample_store).
Proof.
  split.
  - exact (simplify_script_spec sample_env sample_store en_Latn
             sample_store_wf).
  - exact (simplify_script_spec sample_env sample_store zh_TW
             sample_store_wf).
Defined.

(** Two objects with different attributes and one serialization. *)
Lemma eq_iff_same_tag_witness :
  (__eq__ en_US en_US_language = true
   <-> to_tag en_US = to_tag en_US_language)
  /\ __eq__ en_US en_US_language = true
  /\ language en_US <> language en_US_language.
Proof.
  split; [|split; [reflexivity | discriminate]].
  apply (eq_iff_same_tag sample_store en_US en_US_language sample_store_wf).
  - vm_compute. tauto.
  - vm_compute. tauto.
Defined.

Lemma make_returns_interned_instance_witness :
  exists o,
    make (Some "en") None None (Some "GB") None None None sample_store
    = (Ok o,
       snd (make (Some "en") None None (Some "GB") None None None
              sample_store))
    /\ In o (heap (snd (make (Some "en") None None (Some "GB") None None
                          None sample_store)))
    /\ values_of o = (Some "en", [], None, Some "GB", [], [], None)
    /\ make (Some "en") None None (Some "GB") None None None
         (snd (make (Some "fr") None None None None None None
            (snd (make (Some "en") None None (Some "GB") None None None
                    sample_store))))
       = (Ok o,
          snd (make (Some "fr") None None None None None None
            (snd (make (Some "en") None None (Some "GB") None None None
                    sample_store)))).
Proof.
  destruct (make_returns_interned_instance (Some "en") None None
              (Some "GB") None None None sample_store
              (snd (make (Some "fr") None None None None None None
                 (snd (make (Some "en") None None (Some "GB") None None
                         None sample_store))))
              sample_store_wf)
    as [o [Hm [Hin [Hv [_ [_ [_ [Hm2 _]]]]]]]].
  - apply evolves_make, evolves_refl.
  - exists o. split; [exact Hm|]. split; [exact Hin|].
    split; [exact Hv|exact Hm2].
Defined.

Lemma maximize_raises_without_likely_witness :
  maximize no_likely_env und_IN sample_store
  = (Raise (RuntimeError likely_subtags_error),
     snd (broaden und_IN sample_store)).
Proof.
  apply (maximize_raises_without_likely no_likely_env und_IN sample_store
           [und_IN; und_IN; und_tag]).
  - vm_compute. reflexivity.
  - intros b Hb. reflexivity.
Defined.

(** Without normalization, and with normalization when the replacement
    table does not know the tag. *)
Lemma get_grandfathered_witness :
  (exists r st',
      get sample_env (TagStr "en-gb-oed") false sample_store = (Ok r, st')
      /\ language r = Some "en-gb-oed"
      /\ script r = None /\ territory r = None /\ private r = None
      /\ tuple_or_empty (extlangs r) = []
      /\ tuple_or_empty (variants r) = []
      /\ tuple_or_empty (extensions r) = []
      /\ (no_empty_sequences sample_store ->
          extlangs r = None /\ variants r = None /\ extensions r = None))
  /\ (exists r st',
         get no_likely_env (TagStr "en-gb-oed") true sample_store
         = (Ok r, st')
         /\ language r = Some "en-gb-oed"
         /\ script r = None /\ territory r = None /\ private r = None
         /\ tuple_or_empty (extlangs r) = []
         /\ tuple_or_empty (variants r) = []
         /\ tuple_or_empty (extensions r) = []
         /\ (no_empty_sequences sample_store ->
             extlangs r = None /\ variants r = None /\ extensions r = None)).
Proof.
  split.
  - apply (get_grandfathered sample_env "en-gb-oed" false "en-gb-oed"
             sample_store sample_store_wf).
    + reflexivity.
    + left. reflexivity.
  - apply (get_grandfathered no_likely_env "en-gb-oed" true "en-gb-oed"
             sample_store sample_store_wf).
    + reflexivity.
    + right. reflexivity.
Defined.

(** The docstring examples of [get] on this tag, and of [to_tag]. *)
Example get_en_gb_oed :
  fst (get sample_env (TagStr "en-gb-oed") false empty_store)
  = Ok (mkLanguage 0 (Some "en-gb-oed") None None None None None None
          (Some "en-gb-oed")).
Proof. vm_compute. reflexivity. Qed.

Example to_tag_docstring :
  render_tag (Some "yue") None (Some "Hant") (Some "HK") None None None
  = "yue-Hant-HK"
  /\ render_tag None None (Some "Arab") None None None None = "und-Arab"
  /\ render_tag None None None None None None None = "und".
Proof. repeat split. Qed.

(** The docstring examples of [simplify_script]. *)
Example simplify_script_docstring :
  fst ((en <- make (Some "en") None (Some "Latn") None None None None ;;
        yi_Latn <- make (Some "yi") None (Some "Latn") None None None None ;;
        yi_Hebr <- make (Some "yi") None (Some "Hebr") None None None None ;;
        a <- simplify_script sample_env en ;;
        b <- simplify_script sample_env yi_Latn ;;
        c <- simplify_script sample_env yi_Hebr ;;
        ret (map to_tag [a; b; c])) empty_store)
  = Ok ["en"; "yi-Latn"; "yi"].
Proof. vm_compute. reflexivity. Qed.

(** The docstring examples of [maximize] that the sample table covers:
    the empty tag, [zh-TW], and [und-ibe], whose extlang is kept. *)
Example maximize_docstring :
  fst ((und <- make None None None None None None None ;;
        ibe <- make None (Some ["ibe"]) None None None None None ;;
        a <- maximize sample_env und ;;
        b <- maximize sample_env zh_TW ;;
        c <- maximize sample_env ibe ;;
        ret (map to_tag [a; b; c])) sample_store)
  = Ok ["en-Latn-US"; "zh-Hant-TW"; "en-ibe-Latn-US"].
Proof. vm_compute. reflexivity. Qed.

(** Why [maximize_twice_complete_values] asks for an entry for
    [und] and for complete values: on a table without the former the
    second call finds nothing, and on a table with a partial value it
    completes the tag further. *)
Example maximize_twice_without_und :
  fst ((m <- maximize no_und_env und_IN ;;
        ret (to_tag m)) sample_store)
  = Ok "hi-Deva-IN"
  /\ fst ((m <- maximize no_und_env und_IN ;;
           maximize no_und_env m) sample_store)
     = Raise (RuntimeError likely_subtags_error).
Proof. split; vm_compute; reflexivity. Qed.

Example maximize_twice_partial_value :
  fst ((und <- make None None None None None None None ;;
        m <- maximize partial_value_env und ;;
        m' <- maximize partial_value_env m ;;
        ret (to_tag m, to_tag m')) sample_store)
  = Ok ("en", "en-Latn-US").
Proof. vm_compute. reflexivity. Qed.

(** * Further properties *)

(** ** The order of strings and [sorted] *)

Lemma string_leb_trans a :
  forall b c,
    String.leb a b = true -> String.leb b c = true -> String.leb a c = true.
Proof.
  induction a as [|x a IH]; intros [|y b] [|z c]; unfold String.leb;
    simpl; try reflexivity; try discriminate.
  unfold Ascii.compare.
  destruct (N.compare_spec (N_of_ascii x) (N_of_ascii y)) as [E1|L1|G1];
    destruct (N.compare_spec (N_of_ascii y) (N_of_ascii z)) as [E2|L2|G2];
    try discriminate;
    destruct (N.compare_spec (N_of_ascii x) (N_of_ascii z)) as [E3|L3|G3];
    try reflexivity; try lia.
  apply IH.
Qed.

Lemma insert_sorted_perm x l : Permutation (insert_sorted x l) (x :: l).
Proof.
  induction l as [|y l IH]; simpl; [reflexivity|].
  destruct (String.leb x y); [reflexivity|].
  rewrite IH. apply perm_swap.
Qed.

Lemma sorted_perm l : Permutation (sorted l) l.
Proof.
  induction l as [|x l IH]; simpl; [reflexivity|].
  unfold sorted in IH. rewrite insert_sorted_perm. now apply perm_skip.
Qed.

Lemma insert_sorted_sorted x l :
  StronglySorted leb_string l -> StronglySorted leb_string (insert_sorted x l).
Proof.
  induction l as [|y l IH]; intros Hs; simpl.
  - constructor; constructor.
  - inversion Hs as [|? ? Hl Hy]; subst.
    destruct (String.leb x y) eqn:E.
    + constructor; [assumption|]. constructor; [assumption|].
      eapply Forall_impl; [|exact Hy].
      intros z Hz. eapply string_leb_trans; eassumption.
    + constructor; [now apply IH|].
      eapply Permutation_Forall;
        [symmetry; apply insert_sorted_perm|].
      constructor; [|assumption].
      destruct (String.leb_total x y) as [H|H]; [congruence|assumption].
Qed.

Lemma sorted_sorted l : StronglySorted leb_string (sorted l).
Proof.
  induction l as [|x l IH]; simpl; [constructor|].
  now apply insert_sorted_sorted.
Qed.

Lemma sorted_unique l1 :
  forall l2,
    StronglySorted leb_string l1 -> StronglySorted leb_string l2 ->
    Permutation l1 l2 -> l1 = l2.
Proof.
  induction l1 as [|a l1 IH]; intros l2 H1 H2 Hp.
  - apply Permutation_nil in Hp. now subst.
  - destruct l2 as [|b l2];
      [apply Permutation_sym, Permutation_nil in Hp; discriminate|].
    inversion H1 as [|? ? Hs1 Ha]; inversion H2 as [|? ? Hs2 Hb]; subst.
    assert (Hab : a = b).
    { assert (Hin1 : In a (b :: l2))
        by (eapply Permutation_in; [exact Hp | now left]).
      assert (Hin2 : In b (a :: l1))
        by (eapply Permutation_in; [symmetry; exact Hp | now left]).
      destruct Hin1 as [->|Hin1]; [reflexivity|].
      destruct Hin2 as [->|Hin2]; [reflexivity|].
      rewrite Forall_forall in Ha, Hb.
      apply String.leb_antisym; [now apply Ha | now apply Hb]. }
    subst b. f_equal. apply IH; try assumption.
    eapply Permutation_cons_inv; eassumption.
Qed.

(** [sorted] does not depend on the order of its argument. *)
Lemma sorted_permutation l l' : Permutation l l' -> sorted l = sorted l'.
Proof.
  intros Hp. apply sorted_unique; try apply sorted_sorted.
  rewrite !sorted_perm. assumption.
Qed.

Lemma append_seq_sorted_permutation subtags e e' :
  Permutation e e' ->
  append_seq subtags sorted (Some e) = append_seq subtags sorted (Some e').
Proof.
  intros Hp. destruct e as [|a e].
  - apply Permutation_nil in Hp. now subst.
  - destruct e' as [|a' e'];
      [apply Permutation_sym, Permutation_nil in Hp; discriminate|].
    simpl. f_equal. now apply (sorted_permutation (a :: e) (a' :: e')).
Qed.

(** ** Equality of instances *)

Lemma eq_of_same_tag st x y :
  wf_store st -> In x (heap st) -> In y (heap st) ->
  to_tag x = to_tag y -> __eq__ x y = true.
Proof.
  intros Hwf Hx Hy Htag. unfold __eq__.
  destruct (py_id x =? py_id y)%nat; [reflexivity|].
  apply opt_str_eqb_eq.
  rewrite (well_formed_to_tag x (wf_objects st Hwf x Hx)).
  rewrite (well_formed_to_tag y (wf_objects st Hwf y Hy)).
  now rewrite Htag.
Qed.

Lemma same_tag_of_eq st x y :
  wf_store st -> In x (heap st) -> In y (heap st) ->
  __eq__ x y = true -> to_tag x = to_tag y.
Proof.
  intros Hwf Hx Hy. unfold __eq__.
  destruct (Nat.eqb_spec (py_id x) (py_id y)) as [Hid|Hid].
  - intros _. now rewrite (heap_id_injective st x y Hwf Hx Hy Hid).
  - rewrite opt_str_eqb_eq.
    rewrite (well_formed_to_tag x (wf_objects st Hwf x Hx)).
    rewrite (well_formed_to_tag y (wf_objects st Hwf y Hy)).
    congruence.
Qed.

(** X1. Two live instances whose extlangs, and whose variants, hold the
    same subtags in a different order, and whose other attributes agree,
    compare equal: [to_tag] sorts both sequences. *)
Theorem eq_up_to_order st a b :
  wf_store st -> In a (heap st) -> In b (heap st) ->
  language a = language b -> script a = script b ->
  territory a = territory b -> extensions a = extensions b ->
  private a = private b ->
  Permutation (tuple_or_empty (extlangs a)) (tuple_or_empty (extlangs b)) ->
  Permutation (tuple_or_empty (variants a)) (tuple_or_empty (variants b)) ->
  __eq__ a b = true.
Proof.
  intros Hwf Ha Hb Hl Hs Ht Hx Hp He Hv.
  apply (eq_of_same_tag st a b Hwf Ha Hb).
  rewrite (to_tag_values a (wf_objects st Hwf a Ha)).
  rewrite (to_tag_values b (wf_objects st Hwf b Hb)).
  unfold values_of, tag_of_values, render_tag.
  rewrite Hl, Hs, Ht, Hx, Hp.
  rewrite (append_seq_sorted_permutation _ _ _ He).
  rewrite (append_seq_sorted_permutation _ _ _ Hv).
  reflexivity.
Qed.

(** X2. On live instances [==] is an equivalence relation. *)
Theorem eq_equivalence st x y z :
  wf_store st -> In x (heap st) -> In y (heap st) -> In z (heap st) ->
  __eq__ x x = true
  /\ __eq__ x y = __eq__ y x
  /\ (__eq__ x y = true -> __eq__ y z = true -> __eq__ x z = true).
Proof.
  intros Hwf Hx Hy Hz. split; [|split].
  - unfold __eq__. now rewrite Nat.eqb_refl.
  - destruct (__eq__ x y) eqn:E1, (__eq__ y x) eqn:E2; try reflexivity.
    + apply (same_tag_of_eq st x y Hwf Hx Hy) in E1.
      symmetry in E1. apply (eq_of_same_tag st y x Hwf Hy Hx) in E1.
      congruence.
    + apply (same_tag_of_eq st y x Hwf Hy Hx) in E2.
      symmetry in E2. apply (eq_of_same_tag st x y Hwf Hx Hy) in E2.
      congruence.
  - intros H1 H2.
    apply (same_tag_of_eq st x y Hwf Hx Hy) in H1.
    apply (same_tag_of_eq st y z Hwf Hy Hz) in H2.
    apply (eq_of_same_tag st x z Hwf Hx Hz). congruence.
Qed.

(** ** Interning *)

(** X3. In every store reached from the empty one, an instance found in
    [_INSTANCES] is stored under the tuple of its own attribute values, is
    a live object, and serializes as that tuple does. *)
Theorem interned_under_own_key st k o :
  evolves empty_store st ->
  instances_lookup k (_INSTANCES st) = Some o ->
  values_of o = k /\ In o (heap st) /\ to_tag o = tag_of_values k.
Proof.
  intros Hev Hk. assert (Hwf := reachable_wf st Hev).
  destruct (wf_instances st Hwf k o Hk) as [Hv Hin].
  split; [assumption|]. split; [assumption|].
  rewrite <- Hv. apply to_tag_values. now apply (wf_objects st Hwf).
Qed.

(** X4. Two calls of [make], with any constructions in between, return
    the same object exactly when their arguments build the same tuple
    [values]. *)
Theorem make_same_object_iff l e s t v x p l' e' s' t' v' x' p'
    st o1 st1 st2 o2 st3 :
  wf_store st ->
  make l e s t v x p st = (Ok o1, st1) ->
  evolves st1 st2 ->
  make l' e' s' t' v' x' p' st2 = (Ok o2, st3) ->
  (py_id o1 = py_id o2
   <-> make_values l e s t v x p = make_values l' e' s' t' v' x' p').
Proof.
  intros Hwf H1 Hev H2.
  destruct (make_ensures l e s t v x p st Hwf)
    as [o1' [st1' [H1' [Hwf1 [_ [Hin1 [Hv1 Hk1]]]]]]].
  rewrite H1 in H1'. inversion H1'; subst o1' st1'. cbv zeta in Hv1, Hk1.
  assert (Hwf2 := evolves_wf _ _ Hev Hwf1).
  destruct (make_ensures l' e' s' t' v' x' p' st2 Hwf2)
    as [o2' [st3' [H2' [Hwf3 [Hev3 [Hin2 [Hv2 Hk2]]]]]]].
  rewrite H2 in H2'. inversion H2'; subst o2' st3'. cbv zeta in Hv2, Hk2.
  unfold make_values. split.
  - intros Hid.
    assert (Hin1' : In o1 (heap st3))
      by (eapply evolves_heap; [exact Hev3|];
          eapply evolves_heap; eassumption).
    rewrite <- Hv1, <- Hv2.
    now rewrite (heap_id_injective st3 o1 o2 Hwf3 Hin1' Hin2 Hid).
  - intros Hkey.
    assert (Hk1' := evolves_lookup _ _ _ _ Hev Hk1).
    rewrite Hkey in Hk1'.
    rewrite (make_same_key _ _ _ _ _ _ _ _ _ Hk1') in H2.
    inversion H2. reflexivity.
Qed.

(** ** update *)

Lemma or_str_assoc a b c : or_str (or_str c b) a = or_str c (or_str b a).
Proof.
  unfold or_str. destruct (truthy_str c) eqn:Ec; [now rewrite Ec|].
  reflexivity.
Qed.

Lemma tuple_or_seq a b :
  tuple_or_empty (or_seq a b)
  = or_tuple (tuple_or_empty a) (tuple_or_empty b).
Proof. destruct a as [[|x a]|]; reflexivity. Qed.

Lemma or_tuple_assoc a b c :
  or_tuple (or_tuple c b) a = or_tuple c (or_tuple b a).
Proof. destruct c; reflexivity. Qed.

(** The key of the instance that [update] returns, in terms of the keys
    of its arguments. *)
Lemma update_key self other st :
  wf_store st ->
  exists r st',
    update self other st = (Ok r, st')
    /\ wf_store st' /\ evolves st st'
    /\ instances_lookup (values_of r) (_INSTANCES st') = Some r
    /\ values_of r
       = (or_str (language other) (language self),
          or_tuple (tuple_or_empty (extlangs other))
            (tuple_or_empty (extlangs self)),
          or_str (script other) (script self),
          or_str (territory other) (territory self),
          or_tuple (tuple_or_empty (variants other))
            (tuple_or_empty (variants self)),
          or_tuple (tuple_or_empty (extensions other))
            (tuple_or_empty (extensions self)),
          or_str (private other) (private self)).
Proof.
  intros Hwf. unfold update.
  destruct (make_ensures (or_str (language other) (language self))
              (or_seq (extlangs other) (extlangs self))
              (or_str (script other) (script self))
              (or_str (territory other) (territory self))
              (or_seq (variants other) (variants self))
              (or_seq (extensions other) (extensions self))
              (or_str (private other) (private self)) st Hwf)
    as [r [st' [Hm [Hwf' [Hev [_ [Hv Hk]]]]]]].
  cbv zeta in Hv, Hk. rewrite !tuple_or_seq in Hv, Hk.
  exists r, st'. repeat (split; [assumption|]).
  split; [now rewrite Hv | assumption].
Qed.

(** X5. [update] is associative: merging [b] then [c] over [a] returns
    the same instance as merging over [a] the merge of [c] over [b]. *)
Theorem update_assoc a b c st r st1 :
  wf_store st ->
  (ab <- update a b ;; update ab c) st = (Ok r, st1) ->
  exists st2, (bc <- update b c ;; update a bc) st1 = (Ok r, st2).
Proof.
  intros Hwf Hleft. apply bind_inv in Hleft.
  destruct Hleft as [[ab [st0 [Hab Habc]]]|[e [_ He]]]; [|discriminate].
  destruct (update_key a b st Hwf)
    as [ab' [st0' [Hab' [Hwf0 [_ [_ Hvab]]]]]].
  rewrite Hab in Hab'. inversion Hab'; subst ab' st0'.
  destruct (update_key ab c st0 Hwf0)
    as [r' [st1' [Habc' [Hwf1 [_ [Hkr Hvr]]]]]].
  rewrite Habc in Habc'. inversion Habc'; subst r' st1'.
  destruct (update_key b c st1 Hwf1)
    as [bc [st2 [Hbc [Hwf2 [Hev2 [_ Hvbc]]]]]].
  exists st2. rewrite (bind_ok _ _ _ _ _ Hbc).
  unfold update. apply make_same_key.
  apply values_of_inv in Hvab.
  destruct Hvab as [Al [Ae [As [At [Av [Ax Ap]]]]]].
  apply values_of_inv in Hvbc.
  destruct Hvbc as [Bl [Be [Bs [Bt [Bv [Bx Bp]]]]]].
  rewrite !tuple_or_seq, Bl, Be, Bs, Bt, Bv, Bx, Bp.
  rewrite !or_str_assoc, !or_tuple_assoc.
  rewrite <- Al, <- Ae, <- As, <- At, <- Av, <- Ax, <- Ap.
  rewrite <- Hvr. eapply evolves_lookup; eassumption.
Qed.

Lemma falsy_or_str a b : truthy_str a = false -> or_str a b = b.
Proof. unfold or_str. now intros ->. Qed.

Lemma falsy_tuple a : truthy_seq a = false -> tuple_or_empty a = [].
Proof. destruct a as [[|x a]|]; simpl; intros H; congruence. Qed.

Lemma or_tuple_nil_r a : or_tuple a [] = a.
Proof. now destruct a. Qed.

Lemma append_str_or_falsy subtags x u :
  truthy_str u = false ->
  append_str subtags (or_str x u) = append_str subtags x.
Proof.
  intros Hu. unfold or_str. destruct (truthy_str x) eqn:E; [reflexivity|].
  unfold append_str. rewrite Hu, E. now destruct u, x.
Qed.

Lemma language_subtags_falsy (x : option string) :
  truthy_str x = false ->
  match x with
  | Some l => if truthy_str x then [l] else ["und"]
  | None => ["und"]
  end = ["und"].
Proof. intros ->. now destruct x. Qed.

Lemma render_tag_language_or_falsy x u e s t v ext p :
  truthy_str u = false ->
  render_tag (or_str x u) e s t v ext p = render_tag x e s t v ext p.
Proof.
  intros Hu. unfold or_str. destruct (truthy_str x) eqn:E; [reflexivity|].
  unfold render_tag.
  now rewrite (language_subtags_falsy u Hu), (language_subtags_falsy x E).
Qed.

(** X6. A tag with no attribute is neutral for [update]: merging it over
    an interned instance returns that very instance and builds nothing,
    and merging a live instance over it returns an instance equal to
    it. *)
Theorem update_empty_neutral t u st :
  wf_store st ->
  instances_lookup (values_of t) (_INSTANCES st) = Some t ->
  all_empty u = true ->
  update t u st = (Ok t, st)
  /\ exists r st', update u t st = (Ok r, st') /\ __eq__ r t = true.
Proof.
  intros Hwf Ht Hu. unfold all_empty in Hu.
  rewrite !andb_true_iff, !negb_true_iff in Hu.
  destruct Hu as [[[[[[Ul Ue] Us] Ut] Uv] Ux] Up].
  split.
  - unfold update. apply make_same_key.
    rewrite !tuple_or_seq.
    rewrite (falsy_or_str _ _ Ul), (falsy_or_str _ _ Us),
      (falsy_or_str _ _ Ut), (falsy_or_str _ _ Up).
    rewrite (falsy_tuple _ Ue), (falsy_tuple _ Uv), (falsy_tuple _ Ux).
    exact Ht.
  - destruct (update_key u t st Hwf)
      as [r [st' [Hupd [Hwf' [Hev [Hk Hv]]]]]].
    exists r, st'. split; [assumption|].
    destruct (wf_instances st Hwf _ _ Ht) as [_ Hint].
    destruct (wf_instances st' Hwf' _ _ Hk) as [_ Hinr].
    apply (eq_of_same_tag st' r t Hwf' Hinr (evolves_heap _ _ _ Hev Hint)).
    rewrite (to_tag_values r (wf_objects st' Hwf' r Hinr)).
    rewrite (to_tag_values t (wf_objects st Hwf t Hint)).
    rewrite Hv.
    rewrite (falsy_tuple _ Ue), (falsy_tuple _ Uv), (falsy_tuple _ Ux).
    rewrite !or_tuple_nil_r.
    unfold values_of, tag_of_values.
    rewrite (render_tag_language_or_falsy _ _ _ _ _ _ _ _ Ul).
    unfold render_tag.
    rewrite (append_str_or_falsy _ _ _ Us), (append_str_or_falsy _ _ _ Ut),
      (append_str_or_falsy _ _ _ Up).
    reflexivity.
Qed.

(** ** broaden: the elements after the first *)

Lemma str_in_cons_false x y l :
  str_in x (y :: l) = false -> x <> y /\ str_in x l = false.
Proof.
  unfold str_in. simpl. intros H. apply orb_false_iff in H.
  destruct H as [H1 H2]. split; [now apply String.eqb_neq | assumption].
Qed.

(** What the loop appends: at most one element for each keyset, each the
    instance interned for the attributes of [self] restricted to one of
    the keysets, no serialization twice, none that [seen] holds. *)
Lemma broaden_loop_appends self keysets :
  forall broader seen st,
    wf_store st ->
    ensures (broaden_loop self keysets broader seen) st
      (fun bs st' =>
         exists extra,
           bs = broader ++ extra
           /\ length extra <= length keysets
           /\ NoDup (map to_tag extra)
           /\ (forall b, In b extra -> str_in (to_tag b) seen = false)
           /\ (forall b, In b extra ->
               exists keyset,
                 In keyset keysets
                 /\ let d := _filter_keys (to_dict self) keyset in
                    values_of b
                    = (d_language d, tuple_or_empty (d_extlangs d),
                       d_script d, d_territory d,
                       tuple_or_empty (d_variants d),
                       tuple_or_empty (d_extensions d), d_private d))).
Proof.
  induction keysets as [|keyset keysets IH]; intros broader seen st Hwf.
  - cbn [broaden_loop]. apply ensures_ret; [assumption|].
    exists []. rewrite app_nil_r. split; [reflexivity|].
    split; [simpl; lia|]. split; [constructor|]. split; intros b [].
  - cbn [broaden_loop].
    eapply ensures_bind; [now apply filter_attributes_ensures|].
    cbv beta zeta. intros filtered st1 Hwf1 Hev1 [Hin Hv].
    destruct (str_in (to_tag filtered) seen) eqn:Eseen; cbn [negb].
    + eapply ensures_weaken; [apply (IH broader seen st1 Hwf1)|].
      cbv beta. intros bs st' _ [extra [Hbs [Hlen [Hnd [Hseen Hkey]]]]].
      exists extra. split; [assumption|]. split; [simpl; lia|].
      split; [assumption|]. split; [assumption|].
      intros b Hb. destruct (Hkey b Hb) as [ks [Hks Hvb]].
      exists ks. split; [now right | assumption].
    + eapply ensures_weaken;
        [apply (IH (broader ++ [filtered]) (to_tag filtered :: seen) st1
                  Hwf1)|].
      cbv beta. intros bs st' _ [extra [Hbs [Hlen [Hnd [Hseen Hkey]]]]].
      exists (filtered :: extra).
      split; [now rewrite Hbs, <- app_assoc|].
      split; [simpl; lia|]. split; [|split].
      * simpl. constructor; [|assumption].
        intros Hin'. apply in_map_iff in Hin'.
        destruct Hin' as [b [Hb Hb']].
        destruct (str_in_cons_false _ _ _ (Hseen b Hb')) as [Hne _].
        congruence.
      * intros b [<-|Hb]; [assumption|].
        now destruct (str_in_cons_false _ _ _ (Hseen b Hb)).
      * intros b [<-|Hb].
        -- exists keyset. split; [now left | exact Hv].
        -- destruct (Hkey b Hb) as [ks [Hks Hvb]].
           exists ks. split; [now right | assumption].
Qed.

(** X7. [broaden] returns [self] followed by at most six instances,
    among which no serialization occurs twice. *)
Theorem broaden_tail_distinct self st :
  wf_store st ->
  exists extra st',
    broaden self st = (Ok (self :: extra), st')
    /\ length extra <= 6
    /\ NoDup (map to_tag extra).
Proof.
  intros Hwf. unfold broaden.
  destruct (broaden_loop_appends self BROADER_KEYSETS [self]
              (chars (to_tag self)) st Hwf)
    as [bs [st' [Hrun [_ [_ [extra [Hbs [Hlen [Hnd _]]]]]]]]].
  exists extra, st'. subst bs. split; [exact Hrun|]. now split.
Qed.

(** X8. Each element that [broaden] returns after the first has no
    extlangs, variants, extensions or private part, and its language,
    script and territory are those of [self] or are absent. *)
Theorem broaden_tail_restricted self st bs st' b :
  wf_store st ->
  broaden self st = (Ok bs, st') ->
  In b (tl bs) ->
  tuple_or_empty (extlangs b) = []
  /\ tuple_or_empty (variants b) = []
  /\ tuple_or_empty (extensions b) = []
  /\ private b = None
  /\ (language b = None \/ language b = language self)
  /\ (script b = None \/ script b = script self)
  /\ (territory b = None \/ territory b = territory self).
Proof.
  intros Hwf Hrun Hb. unfold broaden in Hrun.
  destruct (broaden_loop_appends self BROADER_KEYSETS [self]
              (chars (to_tag self)) st Hwf)
    as [bs' [st'' [Hrun' [_ [_ [extra [Hbs [_ [_ [_ Hkey]]]]]]]]]].
  rewrite Hrun in Hrun'. inversion Hrun'; subst bs' st''. subst bs.
  simpl in Hb. destruct (Hkey b Hb) as [keyset [Hks Hv]].
  cbv zeta in Hv. apply values_of_inv in Hv.
  destruct Hv as [Hl [He [Hs [Ht [Hva [Hx Hp]]]]]].
  unfold BROADER_KEYSETS in Hks. simpl in Hks.
  unfold to_dict, _filter_keys in *. cbn [d_language d_extlangs d_script
    d_territory d_variants d_extensions d_private] in *.
  assert (Hkeep : forall (c c' : bool) (x : option string) y,
             y = (if c then (if c' then x else None) else None) ->
             y = None \/ y = x)
    by (intros [] [] x y ->; auto).
  repeat split;
    try (destruct Hks as [<-|[<-|[<-|[<-|[<-|[<-|[]]]]]]];
         simpl in He, Hva, Hx, Hp; congruence);
    eapply Hkeep; eassumption.
Qed.

(** ** simplify_script and assume_script *)

Lemma update_dict_script_ensures self v st :
  wf_store st ->
  ensures (update_dict self (newdata_script v)) st
    (fun r st' =>
       In r (heap st')
       /\ values_of r
          = (language self, tuple_or_empty (extlangs self), v,
             territory self, tuple_or_empty (variants self),
             tuple_or_empty (extensions self), private self)).
Proof.
  intros Hwf. unfold update_dict, newdata_script, nd_get.
  eapply ensures_weaken; [now apply make_ensures|].
  cbv beta zeta. cbn. intros r st' _ [Hin [Hv _]]. now split.
Qed.

Lemma simplify_script_cases env t st :
  wf_store st ->
  simplify_script env t st = (Ok t, st)
  \/ exists lang s,
       language t = Some lang /\ script t = Some s
       /\ lang <> "" /\ s <> ""
       /\ table_get (DEFAULT_SCRIPTS env) lang = Some s
       /\ simplify_script env t st
          = update_dict t (newdata_script None) st.
Proof.
  intros Hwf. unfold simplify_script.
  destruct (language t) as [lang|] eqn:El; [|now left].
  destruct (script t) as [s|] eqn:Es; simpl;
    [|left; now rewrite andb_false_r].
  destruct (lang =? "") eqn:Hl; simpl; [now left|].
  destruct (s =? "") eqn:Hs; simpl; [now left|].
  destruct (opt_str_eqb _ _) eqn:Ed; [|now left].
  right. exists lang, s. apply opt_str_eqb_eq in Ed.
  apply String.eqb_neq in Hl, Hs. now repeat split.
Qed.

Lemma simplify_script_no_script env t st :
  truthy_str (script t) = false -> simplify_script env t st = (Ok t, st).
Proof.
  intros Hs. unfold simplify_script. rewrite Hs, andb_false_r.
  now destruct (language t).
Qed.

(** X9. [simplify_script] is idempotent: applied to its own result it
    returns that result and builds nothing. *)
Theorem simplify_script_idempotent env t st r st' :
  wf_store st ->
  simplify_script env t st = (Ok r, st') ->
  simplify_script env r st' = (Ok r, st').
Proof.
  intros Hwf Hrun.
  destruct (simplify_script_cases env t st Hwf)
    as [Hsame|[lang [s [_ [_ [_ [_ [_ Hdrop]]]]]]]].
  - rewrite Hsame in Hrun. inversion Hrun; subst. exact Hsame.
  - rewrite Hdrop in Hrun.
    destruct (update_dict_script_ensures t None st Hwf)
      as [r' [st'' [Hupd [_ [_ [_ Hv]]]]]].
    rewrite Hrun in Hupd. inversion Hupd; subst r' st''.
    apply values_of_inv in Hv. destruct Hv as [_ [_ [Hs _]]].
    apply simplify_script_no_script. now rewrite Hs.
Qed.

Lemma append_str_falsy subtags s :
  truthy_str s = false -> append_str subtags s = subtags.
Proof. unfold append_str. intros ->. now destruct s. Qed.

Lemma tag_script_falsy l e s t v x p :
  truthy_str s = false ->
  tag_of_values (l, e, s, t, v, x, p)
  = tag_of_values (l, e, None, t, v, x, p).
Proof.
  intros Hs. unfold tag_of_values, render_tag.
  now rewrite (append_str_falsy _ s Hs).
Qed.

(** X10. For a live instance without a script, [assume_script] followed
    by [simplify_script] returns an instance equal to it. *)
Theorem assume_then_simplify env t st a st1 r st2 :
  wf_store st -> In t (heap st) ->
  truthy_str (script t) = false ->
  assume_script env t st = (Ok a, st1) ->
  simplify_script env a st1 = (Ok r, st2) ->
  __eq__ r t = true.
Proof.
  intros Hwf Hin Hns Hassume Hsimp.
  assert (Hrefl : __eq__ t t = true)
    by (unfold __eq__; now rewrite Nat.eqb_refl).
  assert (Hkeep : a = t /\ st1 = st -> __eq__ r t = true).
  { intros [-> ->].
    rewrite (simplify_script_no_script env t st Hns) in Hsimp.
    inversion Hsimp; subst. exact Hrefl. }
  unfold assume_script in Hassume.
  destruct (language t) as [lang|] eqn:El;
    [|apply Hkeep; inversion Hassume; now split].
  destruct (truthy_str (Some lang) && negb (truthy_str (script t))) eqn:Ec;
    [|apply Hkeep; inversion Hassume; now split].
  destruct (table_get (DEFAULT_SCRIPTS env) lang) as [s|] eqn:Ed;
    [|apply Hkeep; inversion Hassume; now split].
  apply andb_true_iff in Ec. destruct Ec as [Tl _].
  destruct (update_dict_script_ensures t (Some s) st Hwf)
    as [a' [st1' [Hupd [Hwf1 [Hev1 [Hina Hva]]]]]].
  rewrite Hassume in Hupd. inversion Hupd; subst a' st1'.
  assert (Hva' := Hva). apply values_of_inv in Hva'.
  destruct Hva' as [Al [Ae [As [At [Av [Ax Ap]]]]]].
  assert (Htag : forall s', truthy_str s' = false ->
            tag_of_values (language t, tuple_or_empty (extlangs t), s',
                           territory t, tuple_or_empty (variants t),
                           tuple_or_empty (extensions t), private t)
            = to_tag t).
  { intros s' Hs'. rewrite (to_tag_values t (wf_objects st Hwf t Hin)).
    unfold values_of. rewrite El, tag_script_falsy by assumption.
    symmetry. now apply tag_script_falsy. }
  destruct (truthy_str (Some s)) eqn:Ts.
  - assert (Hdrop : simplify_script env a st1
                    = update_dict a (newdata_script None) st1).
    { unfold simplify_script. rewrite Al, El, As, Tl, Ts, Ed. simpl.
      now rewrite String.eqb_refl. }
    rewrite Hdrop in Hsimp.
    destruct (update_dict_script_ensures a None st1 Hwf1)
      as [r' [st' [Hupd' [Hwf2 [Hev2 [Hinr Hvr]]]]]].
    rewrite Hsimp in Hupd'. inversion Hupd'; subst r' st'.
    apply (eq_of_same_tag st2 r t Hwf2 Hinr).
    { eapply evolves_heap; [exact Hev2|]. eapply evolves_heap; eassumption. }
    rewrite (to_tag_values r (wf_objects st2 Hwf2 r Hinr)), Hvr.
    rewrite Al, Ae, At, Av, Ax, Ap. now apply Htag.
  - rewrite (simplify_script_no_script env a st1) in Hsimp
      by now rewrite As.
    inversion Hsimp; subst r st2.
    apply (eq_of_same_tag st1 a t Hwf1 Hina (evolves_heap _ _ _ Hev1 Hin)).
    rewrite (to_tag_values a (wf_objects st1 Hwf1 a Hina)), Hva.
    now apply Htag.
Qed.

(** X11. For a live instance with a script, [simplify_script] followed
    by [assume_script] returns an instance equal to it: the default
    script that was dropped is filled in again. *)
Theorem simplify_then_assume env t st r st1 a st2 :
  wf_store st -> In t (heap st) ->
  truthy_str (script t) = true ->
  simplify_script env t st = (Ok r, st1) ->
  assume_script env r st1 = (Ok a, st2) ->
  __eq__ a t = true.
Proof.
  intros Hwf Hin Hs Hsimp Hassume.
  destruct (simplify_script_cases env t st Hwf)
    as [Hsame|[lang [s [El [Es [Hl [Hne [Ed Hdrop]]]]]]]].
  - rewrite Hsame in Hsimp. inversion Hsimp; subst r st1.
    unfold assume_script in Hassume. rewrite Hs, andb_false_r in Hassume.
    assert (Ha : a = t) by (destruct (language t); now inversion Hassume).
    subst a. unfold __eq__. now rewrite Nat.eqb_refl.
  - rewrite Hdrop in Hsimp.
    destruct (update_dict_script_ensures t None st Hwf)
      as [r' [st' [Hupd [Hwf1 [Hev1 [Hinr Hvr]]]]]].
    rewrite Hsimp in Hupd. inversion Hupd; subst r' st'.
    apply values_of_inv in Hvr.
    destruct Hvr as [Rl [Re [Rs [Rt [Rv [Rx Rp]]]]]].
    assert (Hfill : assume_script env r st1
                    = update_dict r (newdata_script (Some s)) st1).
    { unfold assume_script. rewrite Rl, El, Rs, Ed. simpl.
      apply String.eqb_neq in Hl. now rewrite Hl. }
    rewrite Hfill in Hassume.
    destruct (update_dict_script_ensures r (Some s) st1 Hwf1)
      as [a' [st' [Hupd' [Hwf2 [Hev2 [Hina Hva]]]]]].
    rewrite Hassume in Hupd'. inversion Hupd'; subst a' st'.
    apply (eq_of_same_tag st2 a t Hwf2 Hina).
    { eapply evolves_heap; [exact Hev2|]. eapply evolves_heap; eassumption. }
    rewrite (to_tag_values a (wf_objects st2 Hwf2 a Hina)), Hva.
    rewrite (to_tag_values t (wf_objects st Hwf t Hin)).
    unfold values_of. now rewrite Rl, Re, Rt, Rv, Rx, Rp, Es.
Qed.

(** ** maximize on good data *)

(** X12. When every value of [LIKELY_SUBTAGS] is a maximized tag string,
    the instance that [maximize] returns has a language, a script and a
    territory. *)
Theorem maximize_complete env t st m st' :
  wf_store st ->
  likely_values_maximized env = true ->
  maximize env t st = (Ok m, st') ->
  truthy_str (language m) = true
  /\ truthy_str (script m) = true
  /\ truthy_str (territory m) = true.
Proof.
  intros Hwf Hmaxd Hmax.
  destruct (maximize_inv env t st m st' Hwf Hmax)
    as [_ [_ [_ [key [likely [st0 [v [st1 [Hkey [Hwf0 [Hget Hv]]]]]]]]]]].
  destruct (maximized_value env key likely st0 v st1 Hwf0 Hmaxd Hkey Hget)
    as [l [s [t0 [Hl [Hs [Ht Hvv]]]]]].
  apply values_of_inv in Hvv. destruct Hvv as [Hvl [_ [Hvs [Hvt _]]]].
  apply values_of_inv in Hv. destruct Hv as [Hml [_ [Hms [Hmt _]]]].
  rewrite Hml, Hms, Hmt, Hvl, Hvs, Hvt.
  repeat split; now apply truthy_or_str_l.
Qed.

(** X13. With such a table, [maximize] leaves a complete tag as it is:
    for a live instance that has a language, a script and a territory, it
    returns an instance equal to it. *)
Theorem maximize_complete_tag_unchanged env t st m st' :
  wf_store st -> In t (heap st) ->
  likely_values_maximized env = true ->
  truthy_str (language t) = true ->
  truthy_str (script t) = true ->
  truthy_str (territory t) = true ->
  maximize env t st = (Ok m, st') ->
  __eq__ m t = true.
Proof.
  intros Hwf Hin Hmaxd Tl Ts Tt Hmax.
  destruct (maximize_inv env t st m st' Hwf Hmax)
    as [Hwf' [Hev [Hinm [key [likely [st0 [v [st1
         [Hkey [Hwf0 [Hget Hv]]]]]]]]]]].
  destruct (maximized_value env key likely st0 v st1 Hwf0 Hmaxd Hkey Hget)
    as [l [s [t0 [_ [_ [_ Hvv]]]]]].
  apply (eq_of_same_tag st' m t Hwf' Hinm (evolves_heap _ _ _ Hev Hin)).
  rewrite (to_tag_values m (wf_objects st' Hwf' m Hinm)), Hv.
  rewrite (to_tag_values t (wf_objects st Hwf t Hin)).
  eapply merged_tag; eassumption.
Qed.

(** ** distance *)

(** X14. The distance between two live instances with the same
    serialization is 0, in every environment; nothing is looked up and
    the store is left as it is. *)
Theorem distance_same_tag env desired supported st :
  wf_store st -> In desired (heap st) -> In supported (heap st) ->
  to_tag desired = to_tag supported ->
  distance env desired supported st = (Ok 0%Z, st).
Proof.
  intros Hwf Hd Hs Htag. unfold distance.
  now rewrite (eq_of_same_tag st supported desired Hwf Hs Hd (eq_sym Htag)).
Qed.

(** ** closest_match and best_match *)

Lemma match_distances_fst env desired supported :
  forall st md st',
    match_distances_of env desired supported st = (Ok md, st') ->
    map fst md = supported.
Proof.
  induction supported as [|s supported IH]; intros st md st' H;
    cbn [match_distances_of] in H.
  - inversion H. reflexivity.
  - apply bind_inv in H.
    destruct H as [[d [st1 [_ H]]]|[e [_ He]]]; [|discriminate].
    apply bind_inv in H.
    destruct H as [[tl [st2 [Htl H]]]|[e [_ He]]]; [|discriminate].
    inversion H; subst. simpl. f_equal. eapply IH; eassumption.
Qed.

(** The head of the sorted list is the first element of least distance. *)
Lemma sort_by_distance_head l :
  forall x rest,
    sort_by_distance l = x :: rest ->
    exists before after,
      l = before ++ x :: after
      /\ (forall y, In y before -> (snd x < snd y)%Z)
      /\ (forall y, In y after -> (snd x <= snd y)%Z).
Proof.
  induction l as [|a l IH]; intros x rest H; [discriminate|].
  unfold sort_by_distance in H. simpl in H. fold (sort_by_distance l) in H.
  destruct (sort_by_distance l) as [|y r] eqn:Es.
  - assert (l = []).
    { destruct l as [|b l]; [reflexivity|].
      unfold sort_by_distance in Es. simpl in Es.
      destruct (fold_right insert_by_distance [] l) as [|c l'];
        simpl in Es; [discriminate|].
      destruct (snd b <=? snd c)%Z; discriminate. }
    subst l. simpl in H. inversion H; subst.
    exists [], []. split; [reflexivity|]. split; intros y [].
  - destruct (IH y r eq_refl) as [before [after [Hl [Hb Ha]]]].
    simpl in H. destruct (Z.leb_spec (snd a) (snd y)) as [Hle|Hgt].
    + inversion H; subst x rest. exists [], l.
      split; [reflexivity|]. split; [intros z []|].
      intros z Hz. rewrite Hl in Hz. apply in_app_or in Hz.
      destruct Hz as [Hz|[<-|Hz]].
      * specialize (Hb z Hz). lia.
      * assumption.
      * specialize (Ha z Hz). lia.
    + inversion H; subst x rest. exists (a :: before), after.
      split; [now rewrite Hl|]. split; [|assumption].
      intros z [<-|Hz]; [assumption | now apply Hb].
Qed.

(** The three ways in which [closest_match] returns. *)
Lemma closest_match_cases env desired supported max_distance st x d st' :
  closest_match env desired supported max_distance st = (Ok (x, d), st') ->
  (x = desired /\ d = 0%Z /\ st' = st
   /\ tag_arg_in desired supported = true)
  \/ (tag_arg_in desired supported = false
      /\ exists std,
           standardize_tag env desired false st = (Ok std, st')
           /\ x = TagStr std /\ d = 0%Z
           /\ tag_arg_in (TagStr std) supported = true)
  \/ (tag_arg_in desired supported = false
      /\ exists std st0 md before after,
           standardize_tag env desired false st = (Ok std, st0)
           /\ tag_arg_in (TagStr std) supported = false
           /\ match_distances_of env (TagStr std) supported st0
              = (Ok md, st')
           /\ filter (fun sd => (snd sd <=? max_distance)%Z) md
                ++ [(TagStr "und", 1000%Z)]
              = before ++ (x, d) :: after
           /\ (forall y, In y before -> (d < snd y)%Z)
           /\ (forall y, In y after -> (d <= snd y)%Z)).
Proof.
  unfold closest_match.
  destruct (tag_arg_in desired supported) eqn:Ein.
  - intros H. inversion H; subst. left. auto.
  - intros H. right. apply bind_inv in H.
    destruct H as [[std [st0 [Hstd H]]]|[e [_ He]]]; [|discriminate].
    destruct (tag_arg_in (TagStr std) supported) eqn:Ein'.
    + inversion H; subst. left. split; [reflexivity|].
      exists std. auto.
    + right. split; [reflexivity|]. apply bind_inv in H.
      destruct H as [[md [st1 [Hmd H]]]|[e [_ He]]]; [|discriminate].
      destruct (sort_by_distance _) as [|first rest] eqn:Es;
        [discriminate|].
      inversion H; subst first st1.
      destruct (sort_by_distance_head _ _ _ Es)
        as [before [after [Hl [Hb Ha]]]].
      exists std, st0, md, before, after. auto 10.
Qed.

(** Where an element sits in a list that ends with a sentinel. *)
Lemma app_tail_split {A} (F before after : list A) (s y : A) :
  F ++ [s] = before ++ y :: after ->
  (after = [] /\ before = F /\ y = s)
  \/ (exists after', after = after' ++ [s] /\ F = before ++ y :: after').
Proof.
  destruct after as [|a after] using rev_ind; intros H.
  - left. apply app_inj_tail in H. destruct H as [-> ->]. auto.
  - right. clear IHafter. exists after.
    change (before ++ y :: after ++ [a])
      with (before ++ (y :: after) ++ [a]) in H.
    rewrite app_assoc in H. apply app_inj_tail in H.
    destruct H as [-> ->]. auto.
Qed.

(** The first element of least distance among the candidates within
    [max_distance] followed by the sentinel is the sentinel when no
    candidate is within [max_distance] and 1000, and else a nearest one
    of those candidates. *)
Lemma nearest_or_sentinel md max_distance before after x d :
  filter (fun sd => (snd sd <=? max_distance)%Z) md
    ++ [(TagStr "und", 1000%Z)]
  = before ++ (x, d) :: after ->
  (forall y, In y before -> (d < snd y)%Z) ->
  (forall y, In y after -> (d <= snd y)%Z) ->
  (x = TagStr "und" /\ d = 1000%Z
   /\ forall sd, In sd md -> (snd sd <= max_distance)%Z ->
                 (1000 < snd sd)%Z)
  \/ (In (x, d) md /\ (d <= max_distance)%Z /\ (d <= 1000)%Z
      /\ forall sd, In sd md -> (snd sd <= max_distance)%Z ->
                    (d <= snd sd)%Z).
Proof.
  intros Hl Hb Ha.
  assert (Hfilter : forall sd, In sd md ->
            (snd sd <= max_distance)%Z ->
            In sd (filter (fun sd => (snd sd <=? max_distance)%Z) md)).
  { intros sd Hsd Hle. apply filter_In. split; [assumption|].
    now apply Z.leb_le. }
  apply app_tail_split in Hl.
  destruct Hl as [[-> [-> Hy]]|[after' [-> HF]]].
  - left. inversion Hy; subst x d. split; [reflexivity|].
    split; [reflexivity|].
    intros sd Hsd Hle. apply (Hb sd). now apply Hfilter.
  - right.
    assert (Hxd : In (x, d)
              (filter (fun sd => (snd sd <=? max_distance)%Z) md))
      by (rewrite HF; apply in_or_app; right; now left).
    apply filter_In in Hxd. destruct Hxd as [Hxd Hle].
    apply Z.leb_le in Hle. cbn [snd] in Hle.
    split; [assumption|]. split; [assumption|]. split.
    + specialize (Ha (TagStr "und", 1000%Z)). cbn [snd] in Ha.
      apply Ha. apply in_or_app. right. now left.
    + intros sd Hsd Hsdle. specialize (Hfilter sd Hsd Hsdle).
      rewrite HF in Hfilter. apply in_app_or in Hfilter.
      destruct Hfilter as [Hin|[<-|Hin]].
      * specialize (Hb sd Hin). lia.
      * cbn [snd]. lia.
      * specialize (Ha sd). cbn [snd] in Ha. apply Ha.
        apply in_or_app. now left.
Qed.


(** X16. When [closest_match] has to compute distances, it returns the
    first element of least distance among the candidates within
    [max_distance] followed by the sentinel: every candidate before it
    is strictly farther, no candidate after it is nearer. *)
Theorem closest_match_first_nearest env desired supported max_distance st
    x d st' std st0 md st1 :
  closest_match env desired supported max_distance st = (Ok (x, d), st') ->
  tag_arg_in desired supported = false ->
  standardize_tag env desired false st = (Ok std, st0) ->
  tag_arg_in (TagStr std) supported = false ->
  match_distances_of env (TagStr std) supported st0 = (Ok md, st1) ->
  exists before after,
    filter (fun sd => (snd sd <=? max_distance)%Z) md
      ++ [(TagStr "und", 1000%Z)]
    = before ++ (x, d) :: after
    /\ (forall y, In y before -> (d < snd y)%Z)
    /\ (forall y, In y after -> (d <= snd y)%Z).
Proof.
  intros H Hin Hstd Hin' Hmd. apply closest_match_cases in H.
  destruct H as [[_ [_ [_ Hin0]]]|[[_ [std' [Hstd' [_ [_ Hin0]]]]]|
                 [_ [std' [st0' [md' [before [after
                    [Hstd' [_ [Hmd' [Hl [Hb Ha]]]]]]]]]]]]].
  - congruence.
  - rewrite Hstd in Hstd'. inversion Hstd'; subst. congruence.
  - rewrite Hstd in Hstd'. inversion Hstd'; subst std' st0'.
    rewrite Hmd in Hmd'. inversion Hmd'; subst md' st'.
    now exists before, after.
Qed.

(** X17. What [best_match] returns: the desired tag itself with the
    score 100 when the list holds it; otherwise its standardized form
    with the score 100 when the list holds that; otherwise ['und'] with
    the score 0 when no element of the list is within the distance
    [100 - min_score] (and 1000, the distance of the sentinel); and
    otherwise an element of the list at the least distance [d] among
    those within [100 - min_score], with the score [max(0, 100 - d)],
    which is then at least [min_score]. *)
Theorem best_match_score env desired supported min_score st x score st' :
  best_match env desired supported min_score st = (Ok (x, score), st') ->
  (tag_arg_in desired supported = true /\ x = desired /\ score = 100%Z)
  \/ (tag_arg_in desired supported = false
      /\ exists std st0,
           standardize_tag env desired false st = (Ok std, st0)
           /\ ((tag_arg_in (TagStr std) supported = true
                /\ x = TagStr std /\ score = 100%Z)
               \/ (tag_arg_in (TagStr std) supported = false
                   /\ exists md,
                        match_distances_of env (TagStr std) supported st0
                        = (Ok md, st')
                        /\ (((forall sd, In sd md ->
                                (snd sd <= 100 - min_score)%Z ->
                                (1000 < snd sd)%Z)
                             /\ x = TagStr "und" /\ score = 0%Z)
                            \/ (exists d,
                                  In (x, d) md /\ In x supported
                                  /\ (d <= 100 - min_score)%Z
                                  /\ (d <= 1000)%Z
                                  /\ (forall sd, In sd md ->
                                        (snd sd <= 100 - min_score)%Z ->
                                        (d <= snd sd)%Z)
                                  /\ score = Z.max 0 (100 - d)
                                  /\ (min_score <= score)%Z
                                  /\ (0 <= score)%Z))))).
Proof.
  unfold best_match. intros H. apply bind_inv in H.
  destruct H as [[[x' d] [st1 [Hc H]]]|[e [_ He]]]; [|discriminate].
  unfold ret in H. cbv beta iota zeta in H.
  assert (Hx' : x' = x) by congruence.
  assert (Hscore : score = Z.max 0 (100 - d)) by congruence.
  assert (Hst : st1 = st') by congruence.
  subst x' st1. clear H.
  apply closest_match_cases in Hc.
  destruct Hc as [[-> [-> [_ Hin]]]|[[Hno [std [Hstd [-> [-> Hin]]]]]|
                  [Hno [std [st0 [md [before [after
                     [Hstd [Hno' [Hmd [Hl [Hb Ha]]]]]]]]]]]]].
  - left. subst score. auto.
  - right. split; [assumption|]. exists std, st'. split; [assumption|].
    left. subst score. auto.
  - right. split; [assumption|]. exists std, st0. split; [assumption|].
    right. split; [assumption|]. exists md. split; [assumption|].
    destruct (nearest_or_sentinel md (100 - min_score)%Z before after x d
                Hl Hb Ha)
      as [[Hx [Hd Hfar]]|[Hxd [Hle [Hd1000 Hmin]]]].
    + left. split; [assumption|]. split; [assumption|].
      subst score d. reflexivity.
    + right. exists d. split; [assumption|]. split.
      { rewrite <- (match_distances_fst _ _ _ _ _ _ Hmd).
        now apply (in_map fst) in Hxd. }
      split; [assumption|]. split; [assumption|].
      split; [assumption|]. split; [assumption|]. subst score. lia.
Qed.

(** ** _best_name *)

Lemma table_get_in_keys (d : table) key v :
  table_get d key = Some v -> In key (table_keys d).
Proof.
  induction d as [|[k v'] d IH]; simpl; [discriminate|].
  destruct (key =? k) eqn:E.
  - intros _. left. symmetry. now apply String.eqb_eq.
  - intros H. right. apply filter_In. split; [now apply IH|].
    now rewrite E.
Qed.

Lemma tag_arg_in_strings s l :
  In s l -> tag_arg_in (TagStr s) (map TagStr l) = true.
Proof.
  intros Hin. unfold tag_arg_in. apply existsb_exists.
  exists (TagStr s). split; [now apply in_map|].
  simpl. apply String.eqb_refl.
Qed.

(** X18. When [names] has an entry for the language asked for,
    [_best_name] returns that entry; nothing is parsed and the store is
    left as it is. *)
Theorem best_name_exact env names language name max_distance st :
  table_get names language = Some name ->
  _best_name env names (TagStr language) max_distance st
  = (Ok (Some name), st).
Proof.
  intros Hget. unfold _best_name, closest_match.
  rewrite tag_arg_in_strings.
  - unfold bind, ret. now rewrite Hget.
  - eapply Permutation_in; [symmetry; apply sorted_perm|].
    eapply table_get_in_keys; eassumption.
Qed.

(** ** Language.get without normalization, again *)

Lemma get_components_no_normalize_env env1 env2 recur1 recur2 components :
  forall data st,
    get_components env1 recur1 false components data st
    = get_components env2 recur2 false components data st.
Proof.
  induction components as [|[typ value] components IH]; intros data st.
  - reflexivity.
  - cbn [get_components].
    destruct typ; try (unfold bind at 1 2, ret at 1 2; apply IH).
    destruct (value =? "und"); unfold bind at 1 2, ret at 1 2; apply IH.
Qed.

(** X19. With [normalize=False], what [Language.get] does depends on
    the parser alone: the replacement tables, and every other part of
    the environment, are not consulted. *)
Theorem get_no_normalize_parser_only env1 env2 tag st :
  (forall s, parse_tag env1 s = parse_tag env2 s) ->
  get env1 tag false st = get env2 tag false st.
Proof.
  intros Hparse. unfold get. cbn [get_depth].
  destruct tag as [s|l]; [|reflexivity].
  rewrite Hparse. destruct (parse_tag env2 s) as [components|e];
    [|reflexivity].
  unfold bind.
  now rewrite (get_components_no_normalize_env env1 env2 _
                 (fun t => get_depth env2 (recursion_limit env2) (TagStr t)
                             false)).
Qed.

(** ** _searchable_form *)

Lemma update_dict_language_ensures self v st :
  wf_store st ->
  ensures (update_dict self (newdata_language v)) st
    (fun r st' =>
       In r (heap st')
       /\ values_of r
          = (v, tuple_or_empty (extlangs self), script self,
             territory self, tuple_or_empty (variants self),
             tuple_or_empty (extensions self), private self)).
Proof.
  intros Hwf. unfold update_dict, newdata_language, nd_get.
  eapply ensures_weaken; [now apply make_ensures|].
  cbv beta zeta. cbn. intros r st' _ [Hin [Hv _]]. now split.
Qed.

(** X20. [_searchable_form] returns an instance that carries a
    language, a script and a territory at most: its extlangs, variants
    and extensions are empty and its private part is [None]. *)
Theorem searchable_form_restricted env self st :
  wf_store st ->
  exists r st',
    _searchable_form env self st = (Ok r, st')
    /\ tuple_or_empty (extlangs r) = []
    /\ tuple_or_empty (variants r) = []
    /\ tuple_or_empty (extensions r) = []
    /\ private r = None.
Proof.
  intros Hwf. unfold _searchable_form.
  destruct (filter_attributes_ensures self
              [attr_language; attr_script; attr_territory] st Hwf)
    as [f [st1 [Hf [Hwf1 [_ [_ Hvf]]]]]].
  cbv zeta in Hvf. cbn in Hvf. apply values_of_inv in Hvf.
  destruct Hvf as [_ [Fe [_ [_ [Fv [Fx Fp]]]]]].
  rewrite (bind_ok _ _ _ _ _ Hf).
  assert (Hs : exists s st2,
             simplify_script env f st1 = (Ok s, st2) /\ wf_store st2
             /\ tuple_or_empty (extlangs s) = []
             /\ tuple_or_empty (variants s) = []
             /\ tuple_or_empty (extensions s) = []
             /\ private s = None).
  { destruct (simplify_script_cases env f st1 Hwf1)
      as [Hsame|[lang [s [_ [_ [_ [_ [_ Hdrop]]]]]]]].
    - exists f, st1. auto 10.
    - destruct (update_dict_script_ensures f None st1 Hwf1)
        as [s' [st2 [Hupd [Hwf2 [_ [_ Hv]]]]]].
      apply values_of_inv in Hv.
      destruct Hv as [_ [Se [_ [_ [Sv [Sx Sp]]]]]].
      exists s', st2. rewrite Hdrop. split; [assumption|].
      split; [assumption|]. now rewrite Se, Sv, Sx, Sp. }
  destruct Hs as [s [st2 [Hs [Hwf2 [Se [Sv [Sx Sp]]]]]]].
  rewrite (bind_ok _ _ _ _ _ Hs).
  unfold prefer_macrolanguage.
  destruct (table_get (NORMALIZED_MACROLANGUAGES env) _) as [macro|].
  - destruct (update_dict_language_ensures s (Some macro) st2 Hwf2)
      as [r [st3 [Hupd [_ [_ [_ Hv]]]]]].
    apply values_of_inv in Hv.
    destruct Hv as [_ [Re [_ [_ [Rv [Rx Rp]]]]]].
    exists r, st3. split; [assumption|]. now rewrite Re, Rv, Rx, Rp.
  - exists s, st2. auto.
Qed.

(** ** to_tag and Language.get *)

Lemma get_components_no_normalize_data env recur components :
  forall data st,
    get_components env recur false components data st
    = (Ok (fold_left no_normalize_step components data), st).
Proof.
  induction components as [|[typ value] components IH]; intros data st.
  - reflexivity.
  - cbn [get_components fold_left no_normalize_step].
    destruct typ; try (unfold bind at 1, ret at 1; apply IH).
    destruct (value =? "und"); unfold bind at 1, ret at 1; apply IH.
Qed.

Lemma fold_step_extlangs l :
  forall data,
    fold_left no_normalize_step (map (pair st_extlang) l) data
    = mkDict (d_language data)
        (fold_left setdefault_append l (d_extlangs data))
        (d_script data) (d_territory data) (d_variants data)
        (d_extensions data) (d_private data).
Proof.
  induction l as [|x l IH]; intros data; [now destruct data|].
  cbn [map fold_left]. rewrite IH. reflexivity.
Qed.

Lemma fold_step_variants l :
  forall data,
    fold_left no_normalize_step (map (pair st_variant) l) data
    = mkDict (d_language data) (d_extlangs data) (d_script data)
        (d_territory data)
        (fold_left setdefault_append l (d_variants data))
        (d_extensions data) (d_private data).
Proof.
  induction l as [|x l IH]; intros data; [now destruct data|].
  cbn [map fold_left]. rewrite IH. reflexivity.
Qed.

Lemma fold_step_extensions l :
  forall data,
    fold_left no_normalize_step (map (pair st_extension) l) data
    = mkDict (d_language data) (d_extlangs data) (d_script data)
        (d_territory data) (d_variants data)
        (fold_left setdefault_append l (d_extensions data))
        (d_private data).
Proof.
  induction l as [|x l IH]; intros data; [now destruct data|].
  cbn [map fold_left]. rewrite IH. reflexivity.
Qed.

Lemma fold_setdefault_append l :
  forall o,
    tuple_or_empty (fold_left setdefault_append l o) = tuple_or_empty o ++ l.
Proof.
  induction l as [|x l IH]; intros o; simpl.
  - now rewrite app_nil_r.
  - rewrite IH. destruct o; simpl; [now rewrite <- app_assoc | reflexivity].
Qed.
Lemma append_seq_sorted_sorted subtags l :
  append_seq subtags sorted (Some (sorted l))
  = append_seq subtags sorted (Some l).
Proof. apply append_seq_sorted_permutation, sorted_perm. Qed.

Lemma append_str_truthy_or_none subtags x :
  append_str subtags (if truthy_str x then x else None)
  = append_str subtags x.
Proof.
  destruct (truthy_str x) eqn:E; [reflexivity|].
  now rewrite (append_str_falsy _ x E).
Qed.

Lemma fold_step_script x data :
  fold_left no_normalize_step
    match x with
    | Some s => if truthy_str x then [(st_script, s)] else []
    | None => []
    end data
  = mkDict (d_language data) (d_extlangs data)
      (if truthy_str x then x else d_script data)
      (d_territory data) (d_variants data) (d_extensions data)
      (d_private data).
Proof.
  destruct x as [s|]; [destruct (truthy_str (Some s))|]; now destruct data.
Qed.

Lemma fold_step_territory x data :
  fold_left no_normalize_step
    match x with
    | Some s => if truthy_str x then [(st_territory, s)] else []
    | None => []
    end data
  = mkDict (d_language data) (d_extlangs data) (d_script data)
      (if truthy_str x then x else d_territory data)
      (d_variants data) (d_extensions data) (d_private data).
Proof.
  destruct x as [s|]; [destruct (truthy_str (Some s))|]; now destruct data.
Qed.

Lemma fold_step_private x data :
  fold_left no_normalize_step
    match x with
    | Some s => if truthy_str x then [(st_private, s)] else []
    | None => []
    end data
  = mkDict (d_language data) (d_extlangs data) (d_script data)
      (d_territory data) (d_variants data) (d_extensions data)
      (if truthy_str x then x else d_private data).
Proof.
  destruct x as [s|]; [destruct (truthy_str (Some s))|]; now destruct data.
Qed.

Lemma render_language_und x e s t v ext p :
  render_tag
    (let lang := match x with
                 | Some l => if truthy_str x then l else "und"
                 | None => "und"
                 end in
     if lang =? "und" then None else Some lang) e s t v ext p
  = render_tag x e s t v ext p.
Proof.
  unfold render_tag. do 7 f_equal.
  destruct x as [l|]; [|reflexivity].
  unfold truthy_str. destruct (l =? "") eqn:El; [reflexivity|].
  cbn [negb]. cbv zeta. destruct (l =? "und") eqn:Eu; [|now rewrite El].
  apply String.eqb_eq in Eu. now subst l.
Qed.

Lemma components_of_data t :
  let data := fold_left no_normalize_step (components_of t) empty_dict in
  tag_of_values
    (d_language data, tuple_or_empty (d_extlangs data), d_script data,
     d_territory data, tuple_or_empty (d_variants data),
     tuple_or_empty (d_extensions data), d_private data)
  = tag_of_values (values_of t).
Proof.
  cbv zeta. unfold components_of. rewrite !fold_left_app.
  set (lang := match language t with
               | Some l => if truthy_str (language t) then l else "und"
               | None => "und"
               end).
  assert (Hd : fold_left no_normalize_step [(st_language, lang)] empty_dict
               = mkDict (if lang =? "und" then None else Some lang)
                   None None None None None None)
    by (cbn; now destruct (lang =? "und")).
  rewrite Hd.
  rewrite fold_step_extlangs; cbn [d_language d_extlangs d_script
    d_territory d_variants d_extensions d_private].
  rewrite fold_step_script; cbn [d_language d_extlangs d_script
    d_territory d_variants d_extensions d_private].
  rewrite fold_step_territory; cbn [d_language d_extlangs d_script
    d_territory d_variants d_extensions d_private].
  rewrite fold_step_variants; cbn [d_language d_extlangs d_script
    d_territory d_variants d_extensions d_private].
  rewrite fold_step_extensions; cbn [d_language d_extlangs d_script
    d_territory d_variants d_extensions d_private].
  rewrite fold_step_private; cbn [d_language d_extlangs d_script
    d_territory d_variants d_extensions d_private].
  rewrite !fold_setdefault_append. cbn [tuple_or_empty app].
  unfold values_of, tag_of_values.
  rewrite <- (render_language_und (language t)). fold lang. cbv zeta.
  unfold render_tag.
  rewrite !append_seq_sorted_sorted, !append_str_truthy_or_none.
  reflexivity.
Qed.

(** X22. [Language.get] without normalization inverts [to_tag] as far
    as the parser does: if the parser splits the serialization of [t]
    back into the subtags of [t], then [get] on that serialization
    returns an instance that serializes as [t]. *)
Theorem get_of_to_tag env t st :
  wf_store st -> well_formed t ->
  parse_tag env (to_tag t) = Ok (components_of t) ->
  exists r st',
    get env (TagStr (to_tag t)) false st = (Ok r, st')
    /\ to_tag r = to_tag t.
Proof.
  intros Hwf Ht Hparse. unfold get. cbn [get_depth]. rewrite Hparse.
  rewrite (bind_ok _ _ _ _ _
             (get_components_no_normalize_data env _ (components_of t)
                empty_dict st)).
  set (data := fold_left no_normalize_step (components_of t) empty_dict).
  unfold make_kwargs.
  destruct (make_ensures (d_language data) (d_extlangs data) (d_script data)
              (d_territory data) (d_variants data) (d_extensions data)
              (d_private data) st Hwf)
    as [r [st' [Hm [Hwf' [_ [Hin [Hv _]]]]]]].
  exists r, st'. split; [exact Hm|].
  rewrite (to_tag_values r (wf_objects st' Hwf' r Hin)), Hv.
  cbv zeta. unfold data. rewrite (components_of_data t).
  symmetry. now apply to_tag_values.
Qed.

(** ** matchable_tags *)

(** X23. [matchable_tags] returns three tags: the serializations of the
    language, script and territory of [self], of its language and
    script, and of its language alone; neither the other attributes nor
    the store bear on them. *)
Theorem matchable_tags_spec self st :
  wf_store st ->
  exists st',
    matchable_tags self st
    = (Ok (let d := to_dict self in
           [render_tag (d_language d) None (d_script d) (d_territory d)
              None None None;
            render_tag (d_language d) None (d_script d) None None None None;
            render_tag (d_language d) None None None None None None]), st').
Proof.
  intros Hwf. unfold matchable_tags, MATCHABLE_KEYSETS.
  cbn [matchable_tags_loop].
  destruct (filter_attributes_ensures self
              [attr_language; attr_script; attr_territory] st Hwf)
    as [f1 [st1 [H1 [Hwf1 [_ [Hin1 Hv1]]]]]].
  destruct (filter_attributes_ensures self [attr_language; attr_script]
              st1 Hwf1) as [f2 [st2 [H2 [Hwf2 [_ [Hin2 Hv2]]]]]].
  destruct (filter_attributes_ensures self [attr_language] st2 Hwf2)
    as [f3 [st3 [H3 [Hwf3 [_ [Hin3 Hv3]]]]]].
  exists st3.
  rewrite (bind_ok _ _ _ _ _ H1), (bind_ok _ _ _ _ _ H2),
    (bind_ok _ _ _ _ _ H3).
  rewrite (to_tag_values f1 (wf_objects st1 Hwf1 f1 Hin1)), Hv1.
  rewrite (to_tag_values f2 (wf_objects st2 Hwf2 f2 Hin2)), Hv2.
  rewrite (to_tag_values f3 (wf_objects st3 Hwf3 f3 Hin3)), Hv3.
  reflexivity.
Qed.

(** ** maximize returns *)

(** X24. When [LIKELY_SUBTAGS] has an entry for [und] and the parser
    accepts its values, [maximize] returns for every tag: the list of
    [broaden] always holds an element serialized as [und]. *)
Theorem maximize_returns env t st :
  wf_store st ->
  likely_has_und env = true ->
  likely_values_parse env = true ->
  exists r st', maximize env t st = (Ok r, st') /\ wf_store st'.
Proof.
  intros Hwf Hund Hparse.
  destruct (maximize_total env t st Hwf Hund Hparse) as [r [st' Hmax]].
  exists r, st'. split; [exact Hmax|].
  now destruct (maximize_inv env t st r st' Hwf Hmax).
Qed.

(** ** maximize applied twice *)











Lemma first_likely_in env broader likely :
  first_likely env broader = Some likely ->
  exists key, table_get (LIKELY_SUBTAGS env) key = Some likely.
Proof.
  induction broader as [|b broader IH]; cbn [first_likely]; [discriminate|].
  destruct (table_get (LIKELY_SUBTAGS env) (to_tag b)) as [l|] eqn:E.
  - intros H. inversion H; subst. now exists (to_tag b).
  - apply IH.
Qed.

Lemma first_likely_hit env broader b :
  In b broader ->
  table_get (LIKELY_SUBTAGS env) (to_tag b) <> None ->
  first_likely env broader <> None.
Proof.
  induction broader as [|b' broader IH]; intros Hin Hhit; [destruct Hin|].
  cbn [first_likely].
  destruct (table_get (LIKELY_SUBTAGS env) (to_tag b')) eqn:E;
    [discriminate|].
  destruct Hin as [->|Hin]; [congruence | now apply IH].
Qed.

(** On a table with an entry for [und] whose values each hold a
    language, a script and a territory, the entry found for a maximized
    tag adds nothing to it. *)
Lemma complete_values_add_nothing env t st m st' :
  wf_store st ->
  likely_has_und env = true ->
  likely_values_maximized env = true ->
  maximize env t st = (Ok m, st') ->
  likely_adds_nothing env m st' = true.
Proof.
  intros Hwf Hund Hmaxd Hmax.
  destruct (maximize_inv env t st m st' Hwf Hmax)
    as [Hwf' [_ [Hin [key [likely [st0 [v [st1 [Hkey [Hwf0 [Hget Hv]]]]]]]]]]].
  destruct (maximized_value env key likely st0 v st1 Hwf0 Hmaxd Hkey Hget)
    as [l [s [t0 [Hl [Hs [Ht Hvv]]]]]].
  apply values_of_inv in Hvv.
  destruct Hvv as [Hvl [_ [Hvs [Hvt _]]]].
  apply values_of_inv in Hv.
  destruct Hv as [Hml [_ [Hms [Hmt _]]]].
  rewrite Hvl in Hml. rewrite Hvs in Hms. rewrite Hvt in Hmt.
  assert (Tl : truthy_str (language m) = true)
    by (rewrite Hml; now apply truthy_or_str_l).
  assert (Ts : truthy_str (script m) = true)
    by (rewrite Hms; now apply truthy_or_str_l).
  assert (Tt : truthy_str (territory m) = true)
    by (rewrite Hmt; now apply truthy_or_str_l).
  unfold likely_adds_nothing.
  destruct (broaden_ensures m st' Hwf')
    as [bs [st2 [Hb [_ [_ [_ [b [Hinb Htag]]]]]]]].
  rewrite Hb.
  destruct (first_likely env bs) as [likely'|] eqn:Ef.
  - destruct (first_likely_in env bs likely' Ef) as [key' Hkey'].
    assert (Hp := table_get_forallb
                    (fun v => match parse_tag env v with
                              | Ok components => is_maximized components
                              | Raise _ => false
                              end) _ _ _ Hmaxd Hkey').
    cbv beta in Hp.
    destruct (parse_tag env likely') as [components|]; [|discriminate].
    unfold is_maximized in Hp.
    destruct components as [|[ty1 x1] components]; [discriminate|].
    destruct ty1; try discriminate.
    destruct components as [|[ty2 x2] components]; [discriminate|].
    destruct ty2; try discriminate.
    destruct components as [|[ty3 x3] components]; [discriminate|].
    destruct ty3; try discriminate.
    destruct components; [|discriminate].
    cbn [forallb has_subtag_kind fst snd].
    now rewrite Tl, Ts, Tt, orb_true_r.
  - exfalso. apply (first_likely_hit env bs b Hinb); [|assumption].
    rewrite Htag. unfold likely_has_und, is_some, is_none in Hund.
    destruct (table_get (LIKELY_SUBTAGS env) "und");
      [discriminate | discriminate].
Qed.



(** ** The further properties at concrete inputs *)

Lemma variants_store_wf : wf_store variants_store.
Proof.
  unfold variants_store. do 2 apply make_wf. apply sample_store_wf.
Qed.

Lemma maximized_store_wf :
  wf_store (snd (maximize sample_env und_IN sample_store)).
Proof.
  eapply evolves_wf; [|apply sample_store_wf].
  eapply evolving_maximize. apply surjective_pairing.
Qed.

Lemma eq_up_to_order_witness : __eq__ en_fonipa_1996 en_1996_fonipa = true.
Proof.
  apply (eq_up_to_order variants_store en_fonipa_1996 en_1996_fonipa
           variants_store_wf); try reflexivity.
  - vm_compute. tauto.
  - vm_compute. tauto.
  - apply perm_swap.
Defined.

Lemma eq_equivalence_witness :
  __eq__ en_US en_US = true
  /\ __eq__ en_US en_US_language = __eq__ en_US_language en_US
  /\ (__eq__ en_US en_US_language = true ->
      __eq__ en_US_language en_US = true ->
      __eq__ en_US en_US = true).
Proof.
  apply (eq_equivalence sample_store en_US en_US_language en_US
           sample_store_wf); vm_compute; tauto.
Defined.

Lemma interned_under_own_key_witness :
  values_of und_IN = (None, [], None, Some "IN", [], [], None)
  /\ In und_IN (heap sample_store)
  /\ to_tag und_IN
     = tag_of_values (None, [], None, Some "IN", [], [], None).
Proof.
  apply (interned_under_own_key sample_store
           (None, [], None, Some "IN", [], [], None) und_IN).
  - unfold sample_store. repeat apply evolves_make. apply evolves_refl.
  - reflexivity.
Defined.

Lemma make_same_object_iff_witness :
  py_id en_GB = py_id en_GB
  <-> make_values (Some "en") None None (Some "GB") None None None
      = make_values (Some "en") None None (Some "GB") None None None.
Proof.
  apply (make_same_object_iff (Some "en") None None (Some "GB") None None
           None (Some "en") None None (Some "GB") None None None
           sample_store en_GB
           (snd (make (Some "en") None None (Some "GB") None None None
                   sample_store))
           (snd (make (Some "en") None None (Some "GB") None None None
                   sample_store))
           en_GB
           (snd (make (Some "en") None None (Some "GB") None None None
                   sample_store))
           sample_store_wf).
  - vm_compute. reflexivity.
  - apply evolves_refl.
  - vm_compute. reflexivity.
Defined.

Lemma update_assoc_witness :
  exists st2,
    (bc <- update zh_TW en_Latn ;; update und_IN bc)
      (snd ((ab <- update und_IN zh_TW ;; update ab en_Latn) sample_store))
    = (Ok en_Latn_TW, st2).
Proof.
  apply (update_assoc und_IN zh_TW en_Latn sample_store en_Latn_TW _
           sample_store_wf).
  vm_compute. reflexivity.
Defined.

Lemma update_empty_neutral_witness :
  update und_IN und_tag sample_store = (Ok und_IN, sample_store)
  /\ exists r st',
       update und_tag und_IN sample_store = (Ok r, st')
       /\ __eq__ r und_IN = true.
Proof.
  apply (update_empty_neutral und_IN und_tag sample_store sample_store_wf).
  - reflexivity.
  - reflexivity.
Defined.

Lemma broaden_tail_distinct_witness :
  exists extra st',
    broaden und_IN sample_store = (Ok (und_IN :: extra), st')
    /\ length extra <= 6
    /\ NoDup (map to_tag extra).
Proof.
  exact (broaden_tail_distinct und_IN sample_store sample_store_wf).
Defined.

Lemma broaden_tail_restricted_witness :
  tuple_or_empty (extlangs und_tag) = []
  /\ tuple_or_empty (variants und_tag) = []
  /\ tuple_or_empty (extensions und_tag) = []
  /\ private und_tag = None
  /\ (language und_tag = None \/ language und_tag = language und_IN)
  /\ (script und_tag = None \/ script und_tag = script und_IN)
  /\ (territory und_tag = None \/ territory und_tag = territory und_IN).
Proof.
  apply (broaden_tail_restricted und_IN sample_store
           [und_IN; und_IN; und_tag] (snd (broaden und_IN sample_store))
           und_tag sample_store_wf).
  - vm_compute. reflexivity.
  - simpl. tauto.
Defined.

Lemma simplify_script_idempotent_witness :
  simplify_script sample_env en_tag
    (snd (simplify_script sample_env en_Latn sample_store))
  = (Ok en_tag, snd (simplify_script sample_env en_Latn sample_store)).
Proof.
  apply (simplify_script_idempotent sample_env en_Latn sample_store en_tag
           _ sample_store_wf).
  vm_compute. reflexivity.
Defined.

Lemma assume_then_simplify_witness : __eq__ en_US en_US = true.
Proof.
  apply (assume_then_simplify sample_env en_US sample_store en_Latn_US
           (snd (assume_script sample_env en_US sample_store))
           en_US
           (snd (simplify_script sample_env en_Latn_US
                   (snd (assume_script sample_env en_US sample_store))))
           sample_store_wf).
  - vm_compute. tauto.
  - reflexivity.
  - vm_compute. reflexivity.
  - vm_compute. reflexivity.
Defined.

Lemma simplify_then_assume_witness : __eq__ en_Latn en_Latn = true.
Proof.
  apply (simplify_then_assume sample_env en_Latn sample_store en_tag
           (snd (simplify_script sample_env en_Latn sample_store))
           en_Latn
           (snd (assume_script sample_env en_tag
                   (snd (simplify_script sample_env en_Latn sample_store))))
           sample_store_wf).
  - vm_compute. tauto.
  - reflexivity.
  - vm_compute. reflexivity.
  - vm_compute. reflexivity.
Defined.

Lemma maximize_complete_witness :
  truthy_str (language hi_Deva_IN) = true
  /\ truthy_str (script hi_Deva_IN) = true
  /\ truthy_str (territory hi_Deva_IN) = true.
Proof.
  apply (maximize_complete sample_env und_IN sample_store hi_Deva_IN
           (snd (maximize sample_env und_IN sample_store))
           sample_store_wf).
  - reflexivity.
  - vm_compute. reflexivity.
Defined.

Lemma maximize_complete_tag_unchanged_witness :
  __eq__ hi_Deva_IN hi_Deva_IN = true.
Proof.
  apply (maximize_complete_tag_unchanged sample_env hi_Deva_IN
           (snd (maximize sample_env und_IN sample_store)) hi_Deva_IN
           (snd (maximize sample_env hi_Deva_IN
                   (snd (maximize sample_env und_IN sample_store))))
           maximized_store_wf).
  - vm_compute. tauto.
  - reflexivity.
  - reflexivity.
  - reflexivity.
  - reflexivity.
  - vm_compute. reflexivity.
Defined.

Lemma distance_same_tag_witness :
  distance no_likely_env en_US en_US_language sample_store
  = (Ok 0%Z, sample_store).
Proof.
  apply (distance_same_tag no_likely_env en_US en_US_language sample_store
           sample_store_wf).
  - vm_compute. tauto.
  - vm_compute. tauto.
  - reflexivity.
Defined.


Lemma closest_match_first_nearest_witness :
  exists before after,
    filter (fun sd => (snd sd <=? 200)%Z)
      [(TagStr "zh-Hant-TW", 134%Z); (TagStr "en-Latn-US", 0%Z)]
      ++ [(TagStr "und", 1000%Z)]
    = before ++ (TagStr "en-Latn-US", 0%Z) :: after
    /\ (forall y, In y before -> (0 < snd y)%Z)
    /\ (forall y, In y after -> (0 <= snd y)%Z).
Proof.
  apply (closest_match_first_nearest sample_env (TagStr "en")
           [TagStr "zh-Hant-TW"; TagStr "en-Latn-US"] 200%Z sample_store
           (TagStr "en-Latn-US") 0%Z
           (snd (closest_match sample_env (TagStr "en")
                   [TagStr "zh-Hant-TW"; TagStr "en-Latn-US"] 200%Z
                   sample_store))
           "en"
           (snd (standardize_tag sample_env (TagStr "en") false sample_store))
           [(TagStr "zh-Hant-TW", 134%Z); (TagStr "en-Latn-US", 0%Z)]
           (snd (match_distances_of sample_env (TagStr "en")
                   [TagStr "zh-Hant-TW"; TagStr "en-Latn-US"]
                   (snd (standardize_tag sample_env (TagStr "en") false
                           sample_store))))).
  - vm_compute. reflexivity.
  - reflexivity.
  - vm_compute. reflexivity.
  - reflexivity.
  - vm_compute. reflexivity.
Defined.

Lemma best_match_score_witness :
  (tag_arg_in (TagStr "en") [TagStr "zh-Hant-TW"; TagStr "en-Latn-US"] = true
   /\ TagStr "en-Latn-US" = TagStr "en" /\ 100 = 100)%Z
  \/ (tag_arg_in (TagStr "en")
      [TagStr "zh-Hant-TW"; TagStr "en-Latn-US"] = false
      /\ exists std st0,
           standardize_tag sample_env (TagStr "en") false sample_store
           = (Ok std, st0)
           /\ ((tag_arg_in (TagStr std)
               [TagStr "zh-Hant-TW"; TagStr "en-Latn-US"] = true
                /\ TagStr "en-Latn-US" = TagStr std /\ 100 = 100)%Z
               \/ (tag_arg_in (TagStr std)
                   [TagStr "zh-Hant-TW"; TagStr "en-Latn-US"] = false
                   /\ exists md,
                        match_distances_of sample_env (TagStr std)
                            [TagStr "zh-Hant-TW"; TagStr "en-Latn-US"] st0
                        = (Ok md,
                           snd (best_match sample_env (TagStr "en")
                               [TagStr "zh-Hant-TW"; TagStr "en-Latn-US"]
                                  75%Z sample_store))
                        /\ (((forall sd, In sd md ->
                                (snd sd <= 100 - 75)%Z ->
                                (1000 < snd sd)%Z)
                             /\ TagStr "en-Latn-US" = TagStr "und"
                             /\ 100 = 0)%Z
                            \/ (exists d,
                                  In (TagStr "en-Latn-US", d) md
                                  /\ In (TagStr "en-Latn-US")
                                      [TagStr "zh-Hant-TW"; TagStr "en-Latn-US"]
                                  /\ (d <= 100 - 75)%Z
                                  /\ (d <= 1000)%Z
                                  /\ (forall sd, In sd md ->
                                        (snd sd <= 100 - 75)%Z ->
                                        (d <= snd sd)%Z)
                                  /\ 100%Z = Z.max 0 (100 - d)
                                  /\ (75 <= 100)%Z
                                  /\ (0 <= 100)%Z))))).
Proof.
  apply (best_match_score sample_env (TagStr "en")
      [TagStr "zh-Hant-TW"; TagStr "en-Latn-US"] 75%Z sample_store
           (TagStr "en-Latn-US") 100%Z
           (snd (best_match sample_env (TagStr "en")
               [TagStr "zh-Hant-TW"; TagStr "en-Latn-US"] 75%Z
                   sample_store))).
  vm_compute. reflexivity.
Defined.

Lemma best_name_exact_witness :
  _best_name no_likely_env sample_names (TagStr "fr") 25 sample_store
  = (Ok (Some "anglais"), sample_store).
Proof.
  apply (best_name_exact no_likely_env sample_names "fr" "anglais" 25%Z
           sample_store).
  reflexivity.
Defined.

Lemma get_no_normalize_parser_only_witness :
  get sample_env (TagStr "en-gb-oed") false sample_store
  = get no_likely_env (TagStr "en-gb-oed") false sample_store.
Proof.
  apply (get_no_normalize_parser_only sample_env no_likely_env
           (TagStr "en-gb-oed") sample_store).
  intros s. reflexivity.
Defined.

Lemma searchable_form_restricted_witness :
  exists r st',
    _searchable_form sample_env en_Latn sample_store = (Ok r, st')
    /\ tuple_or_empty (extlangs r) = []
    /\ tuple_or_empty (variants r) = []
    /\ tuple_or_empty (extensions r) = []
    /\ private r = None.
Proof.
  exact (searchable_form_restricted sample_env en_Latn sample_store
           sample_store_wf).
Defined.

Lemma get_of_to_tag_witness :
  exists r st',
    get sample_env (TagStr (to_tag hi_Deva_IN)) false sample_store
    = (Ok r, st')
    /\ to_tag r = to_tag hi_Deva_IN.
Proof.
  apply (get_of_to_tag sample_env hi_Deva_IN sample_store sample_store_wf).
  - reflexivity.
  - reflexivity.
Defined.

Lemma matchable_tags_spec_witness :
  exists st',
    matchable_tags hi_Deva_IN sample_store
    = (Ok ["hi-Deva-IN"; "hi-Deva"; "hi"], st').
Proof.
  exact (matchable_tags_spec hi_Deva_IN sample_store sample_store_wf).
Defined.

Lemma maximize_returns_witness :
  exists r st',
    maximize sample_env zh_TW sample_store = (Ok r, st') /\ wf_store st'.
Proof.
  apply (maximize_returns sample_env zh_TW sample_store sample_store_wf);
    reflexivity.
Defined.


